(** * svelte-scrollspy: a shallow embedding of [createScrollSpy] and [sectionSpy]

    The tracker of [src/lib/index.ts] is a closure over two insertion-ordered
    JavaScript [Set]s ([targets], [activeTargets]), one mutable variable
    ([lastActiveTarget]), an [IntersectionObserver] and a svelte [writable]
    store.  The closure state, the DOM it reads and the effects it performs
    (console warnings, store broadcasts) are gathered in one record, [World],
    and every function of the source is a computation in a small state and
    exception monad over it. *)

From Stdlib Require Import Ascii String.
From stdpp Require Import base option list strings gmap.

Local Open Scope string_scope.
Local Open Scope list_scope.

(** ** JavaScript [Set]: insertion-ordered, without duplicates *)

Module JsSet.
Section Ops.
Context {A : Type} `{EqDecision A}.

Definition has (x : A) (s : list A) : bool := bool_decide (x ∈ s).

(** [Set.prototype.add]: appended when absent, position kept when present. *)
Definition add (x : A) (s : list A) : list A :=
  if has x s then s else s ++ [x].

(** [Set.prototype.delete]. *)
Definition delete (x : A) (s : list A) : list A :=
  filter (λ y, y ≠ x) s.

Definition clear (s : list A) : list A := [].
End Ops.
End JsSet.

(** ** The DOM the tracker reads and writes *)

(** Elements are compared by reference: an element is its handle. *)
Definition Element := nat.

Record Document := mkDocument {
  (** attribute map of every element (missing handle: no attributes) *)
  attributes : gmap Element (gmap string string);
  (** the elements connected to the document, in tree order *)
  tree : list Element
}.

Definition getAttribute (d : Document) (e : Element) (name : string)
  : option string :=
  (attributes d !!! e) !! name.

Definition setAttribute (e : Element) (name value : string) (d : Document)
  : Document :=
  mkDocument (<[e := <[name := value]> (attributes d !!! e)]> (attributes d))
             (tree d).

(** [elem.id] reflects the [id] attribute, the empty string when absent. *)
Definition id (d : Document) (e : Element) : string :=
  default "" (getAttribute d e "id").

(** [document.getElementById]: first connected element, in tree order, whose
    id is the (non-empty) argument. *)
Definition getElementById (d : Document) (s : string) : option Element :=
  if decide (s = "") then None
  else head (filter (λ e, id d e = s) (tree d)).

(** ** The collaborators: observer, console, store *)

Record IntersectionObserverInit := mkInit {
  root : option Element;
  rootMargin : option string
}.

Record IntersectionObserver := mkObserver {
  observerInit : option IntersectionObserverInit;
  observationTargets : list Element
}.

Record IntersectionObserverEntry := mkEntry {
  entry_target : Element;
  isIntersecting : bool
}.

(** [string | Element] *)
Inductive Target :=
| TId (s : string)
| TElem (e : Element).

Inductive Warning :=
| InvalidTargetNothingToUnspy (s : string)
| MultipleTargetsFound (s : string)
| InvalidTargetNothingToSpyOn (t : Target)
| AlreadyBeingSpiedOn (t : Target)
| CouldNotFindTarget (t : Target)
| ElementMustHaveAnId (t : Target).

(** What a subscriber reads from the store value when it is called. *)
Record Snapshot := mkSnapshot {
  snap_targets : list Element;
  snap_activeTargets : list Element;
  snap_lastActiveTarget : option Element
}.

Record World := mkWorld {
  document : Document;
  console : list Warning;
  targets : list Element;
  activeTargets : list Element;
  lastActiveTarget : option Element;
  (** [None]: the [const observer] (and [const reportUpdates]) bindings were
      never initialised, [createScrollSpy] having returned at line 96. *)
  observer : option IntersectionObserver;
  (** the store values broadcast by [update], oldest first *)
  updates : list Snapshot
}.

Definition with_document (f : Document → Document) (w : World) : World :=
  mkWorld (f (document w)) (console w) (targets w) (activeTargets w)
          (lastActiveTarget w) (observer w) (updates w).
Definition with_console (f : list Warning → list Warning) (w : World) : World :=
  mkWorld (document w) (f (console w)) (targets w) (activeTargets w)
          (lastActiveTarget w) (observer w) (updates w).
Definition with_targets (f : list Element → list Element) (w : World) : World :=
  mkWorld (document w) (console w) (f (targets w)) (activeTargets w)
          (lastActiveTarget w) (observer w) (updates w).
Definition with_activeTargets (f : list Element → list Element) (w : World)
  : World :=
  mkWorld (document w) (console w) (targets w) (f (activeTargets w))
          (lastActiveTarget w) (observer w) (updates w).
Definition with_lastActiveTarget (v : option Element) (w : World) : World :=
  mkWorld (document w) (console w) (targets w) (activeTargets w)
          v (observer w) (updates w).
Definition with_observer (v : option IntersectionObserver) (w : World)
  : World :=
  mkWorld (document w) (console w) (targets w) (activeTargets w)
          (lastActiveTarget w) v (updates w).
Definition with_updates (f : list Snapshot → list Snapshot) (w : World)
  : World :=
  mkWorld (document w) (console w) (targets w) (activeTargets w)
          (lastActiveTarget w) (observer w) (f (updates w)).

(** ** State and exception monad *)

Inductive Error :=
| ReferenceError (binding : string).

Inductive Completion (A : Type) :=
| Normal (a : A)
| Throw (e : Error).
Arguments Normal {A} a.
Arguments Throw {A} e.

Definition JS (A : Type) : Type := World → Completion A * World.

Definition ret {A} (a : A) : JS A := λ w, (Normal a, w).

Definition bind {A B} (m : JS A) (k : A → JS B) : JS B := λ w,
  match m w with
  | (Normal a, w') => k a w'
  | (Throw e, w') => (Throw e, w')
  end.

Definition gets {A} (f : World → A) : JS A := λ w, (Normal (f w), w).
Definition modify (f : World → World) : JS unit := λ w, (Normal tt, f w).

Declare Scope js_scope.
Delimit Scope js_scope with js.
Notation "'let!' x ':=' m 'in' k" := (bind m (λ x, k))
  (at level 10, x name, m at level 100, k at level 200) : js_scope.
Notation "m ';;' k" := (bind m (λ _, k))
  (at level 100, k at level 200, right associativity) : js_scope.
Local Open Scope js_scope.

(** [for (const x of xs) body] *)
Fixpoint for_of {A} (xs : list A) (body : A → JS unit) : JS unit :=
  match xs with
  | [] => ret tt
  | x :: xs' => body x ;; for_of xs' body
  end.

Definition world_after {A} (m : JS A) (w : World) : World := snd (m w).
Definition result_of {A} (m : JS A) (w : World) : Completion A := fst (m w).

(** ** [createScrollSpy] (src/lib/index.ts) *)

Definition console_warn (msg : Warning) : JS unit :=
  modify (with_console (λ c, c ++ [msg])).

(** Reading a [const] declared after the early return of line 96 raises. *)
Definition read_observer : JS IntersectionObserver := λ w,
  match observer w with
  | Some o => (Normal o, w)
  | None => (Throw (ReferenceError "observer"), w)
  end.

Definition observe (elem : Element) : JS unit :=
  let! o := read_observer in
  modify (with_observer
    (Some (mkObserver (observerInit o)
                      (JsSet.add elem (observationTargets o))))).

Definition unobserve (elem : Element) : JS unit :=
  let! o := read_observer in
  modify (with_observer
    (Some (mkObserver (observerInit o)
                      (JsSet.delete elem (observationTargets o))))).

Definition disconnect : JS unit :=
  let! o := read_observer in
  modify (with_observer (Some (mkObserver (observerInit o) []))).

Definition snapshot (w : World) : Snapshot :=
  mkSnapshot (targets w) (activeTargets w) (lastActiveTarget w).

(** [const reportUpdates = () => update((state) => state)]: the store value
    is an object, so every [update] is broadcast.  The binding is initialised
    on the same path as [observer]. *)
Definition reportUpdates : JS unit := λ w,
  match observer w with
  | Some _ => (Normal tt, with_updates (λ u, u ++ [snapshot w]) w)
  | None => (Throw (ReferenceError "reportUpdates"), w)
  end.

Definition setTargetActive (target : Element) : JS unit :=
  modify (with_activeTargets (JsSet.delete target)) ;;
  modify (with_activeTargets (JsSet.add target)) ;;
  modify (with_lastActiveTarget (Some target)).

Definition setTargetUnactive (target : Element) : JS unit :=
  modify (with_activeTargets (JsSet.delete target)).

(** [boolean | null] *)
Definition isActive (w : World) (target : Element) : option bool :=
  if JsSet.has target (activeTargets w) then Some true
  else if negb (JsSet.has target (targets w)) then None
  else Some false.

(** The callback given to [new IntersectionObserver]. *)
Definition observerCallback (entries : list IntersectionObserverEntry)
  : JS unit :=
  for_of entries (λ entry,
    (if isIntersecting entry
     then setTargetActive (entry_target entry)
     else setTargetUnactive (entry_target entry)) ;;
    reportUpdates).

(** Body of the loop of [unspy], lines 150-155. *)
Definition unspy_elem (elem : Element) : JS unit :=
  unobserve elem ;;
  setTargetUnactive elem ;;
  (let! last := gets lastActiveTarget in
   if decide (last = Some elem)
   then modify (with_lastActiveTarget None)
   else ret tt) ;;
  modify (with_targets (JsSet.delete elem)).

(** Lines 133-148: the elements to remove, [None] for the early [return]. *)
Definition unspy_resolve (target : Target) : JS (option (list Element)) :=
  match target with
  | TId s =>
      let! d := gets document in
      let! ts := gets targets in
      let elems := filter (λ t, id d t = s) ts in
      if decide (length elems = 0)
      then console_warn (InvalidTargetNothingToUnspy s) ;; ret None
      else
        (if decide (1 < length elems)
         then console_warn (MultipleTargetsFound s)
         else ret tt) ;;
        ret (Some elems)
  | TElem e => ret (Some [e])
  end.

Definition unspy (target : Target) : JS unit :=
  let! resolved := unspy_resolve target in
  match resolved with
  | None => ret tt
  | Some elems => for_of elems unspy_elem ;; reportUpdates
  end.

Definition unspyAll : JS unit :=
  disconnect ;;
  modify (with_activeTargets JsSet.clear) ;;
  modify (with_lastActiveTarget None) ;;
  modify (with_targets JsSet.clear) ;;
  reportUpdates.

(** [ActionReturn]: [{}] or [{ destroy }], the handle being a closure. *)
Record ActionReturn := mkActionReturn {
  destroy : option (JS unit)
}.

(** [target instanceof Element ? target : document.getElementById(target)] *)
Definition resolve (target : Target) : JS (option Element) :=
  match target with
  | TElem e => ret (Some e)
  | TId s => let! d := gets document in ret (getElementById d s)
  end.

Definition spy (target : Target) : JS ActionReturn :=
  let! elem := resolve target in
  match elem with
  | None =>
      console_warn (InvalidTargetNothingToSpyOn target) ;;
      ret (mkActionReturn None)
  | Some elem =>
      let! ts := gets targets in
      if JsSet.has elem ts
      then console_warn (AlreadyBeingSpiedOn target) ;;
           ret (mkActionReturn None)
      else
        modify (with_targets (JsSet.add elem)) ;;
        observe elem ;;
        reportUpdates ;;
        ret (mkActionReturn (Some (unspy (TElem elem))))
  end.

(** The state right after [createScrollSpy(observerInit)] returned.
    [hasIntersectionObserver] is [typeof IntersectionObserver !== "undefined"]:
    when false the function returns before binding [observer]. *)
Definition createScrollSpy (hasIntersectionObserver : bool)
    (init : option IntersectionObserverInit) (d : Document) : World :=
  mkWorld d [] [] [] None
          (if hasIntersectionObserver then Some (mkObserver init []) else None)
          [].

(** Getters of the store value. *)
Definition amount (w : World) : nat := length (targets w).
Definition activeTarget (w : World) : option Element := last (activeTargets w).
Definition activeId (w : World) : option string :=
  id (document w) <$> activeTarget w.
Definition lastActiveId (w : World) : option string :=
  id (document w) <$> lastActiveTarget w.

(** ** The derived tracker [sectionSpy] *)

(** JavaScript strings are modelled by strings of 8-bit characters, so
    [toUpperCase] is the ASCII one and the line terminators that [.] does not
    match are LF and CR.  The model agrees with the code on the strings made
    of ASCII characters (codes below 128); the statements about labels are
    about such strings. *)
Definition isLineTerminator (c : ascii) : bool :=
  (Ascii.eqb c "010" || Ascii.eqb c "013")%char.

Definition toUpperCase (c : ascii) : ascii :=
  let n := nat_of_ascii c in
  if ((97 <=? n) && (n <=? 122))%nat then ascii_of_nat (n - 32) else c.

(** [s.replace(/-./g, (m) => " " + m[1].toUpperCase())] *)
Fixpoint replace_hyphen_any (s : string) : string :=
  match s with
  | EmptyString => EmptyString
  | String c rest =>
      match rest with
      | String c' rest' =>
          if (Ascii.eqb c "-" && negb (isLineTerminator c'))%char
          then String " " (String (toUpperCase c') (replace_hyphen_any rest'))
          else String c (replace_hyphen_any rest)
      | EmptyString => String c EmptyString
      end
  end.

(** [s.replace(/^(.)/, (m) => m.toUpperCase())] *)
Definition replace_first (s : string) : string :=
  match s with
  | EmptyString => EmptyString
  | String c rest =>
      if isLineTerminator c then s else String (toUpperCase c) rest
  end.

(** kebab-case to Capitalized Words (lines 39-41) *)
Definition kebabCaseToCapWords (s : string) : string :=
  replace_first (replace_hyphen_any s).

Module sectionSpy.

Definition observerInit : IntersectionObserverInit :=
  mkInit None (Some "-50% 0px").

(** [const spy = createScrollSpy({ rootMargin: "-50% 0px" })] *)
Definition create (hasIntersectionObserver : bool) (d : Document) : World :=
  createScrollSpy hasIntersectionObserver (Some observerInit) d.

(** the [spy] action of the wrapped store, [spy.spy] in the source *)
Local Abbreviation wrapped_spy := spy (only parsing).

Definition spy (target : Target) (label : option string) : JS ActionReturn :=
  let! elem := resolve target in
  match elem with
  | None =>
      console_warn (CouldNotFindTarget target) ;;
      ret (mkActionReturn None)
  | Some elem =>
      let! d := gets document in
      if decide (id d elem = "")
      then console_warn (ElementMustHaveAnId target) ;;
           ret (mkActionReturn None)
      else
        let label := default (kebabCaseToCapWords (id d elem)) label in
        let! r := wrapped_spy (TElem elem) in
        match destroy r with
        | Some _ =>
            modify (with_document
                      (setAttribute elem "data-section-label" label))
        | None => ret tt
        end ;;
        ret (mkActionReturn (destroy r))
  end.

End sectionSpy.

(** ** Histories of a tracker *)

(** What can happen to a tracker between two observations: a call of its
    API, a batch of entries delivered by the observer, a change of the DOM
    by the page. *)
Inductive Call :=
| CallSpy (t : Target)
| CallSectionSpy (t : Target) (label : option string)
| CallUnspy (t : Target)
| CallUnspyAll.

Definition call (c : Call) : JS unit :=
  match c with
  | CallSpy t => spy t ;; ret tt
  | CallSectionSpy t l => sectionSpy.spy t l ;; ret tt
  | CallUnspy t => unspy t
  | CallUnspyAll => unspyAll
  end.

(** The observer reports on its observation targets only. *)
Definition observed (w : World) (entries : list IntersectionObserverEntry)
  : Prop :=
  ∃ o, observer w = Some o ∧
       Forall (λ entry, entry_target entry ∈ observationTargets o) entries.

(** The states a tracker created with or without [IntersectionObserver]
    ([has]) can be in. *)
Inductive reachable (has : bool) : World → Prop :=
| reachable_create init d :
    reachable has (createScrollSpy has init d)
| reachable_call w c :
    reachable has w → reachable has (world_after (call c) w)
| reachable_deliver w entries :
    reachable has w → observed w entries →
    reachable has (world_after (observerCallback entries) w)
| reachable_dom w d :
    reachable has w → reachable has (with_document (λ _, d) w).

(** Every member of the active set is a member of the registration set. *)
Definition active_registered (w : World) : Prop :=
  activeTargets w ⊆ targets w.

(** The closure state of the tracker, without the effect logs. *)
Definition tracker_state (w : World)
  : list Element * list Element * option Element * option IntersectionObserver :=
  (targets w, activeTargets w, lastActiveTarget w, observer w).

(** ** Concrete pages used by the examples *)

Definition page (ids : list (Element * string)) : Document :=
  mkDocument
    (list_to_map (map (λ p, (fst p, {[ "id" := snd p ]})) ids))
    (map fst ids).

Definition intro_page : Document :=
  page [(1, "intro-section"); (2, "usage"); (3, "usage")].

(** ** Closed forms used to state what the operations do *)

(** The pointer after the elements [es] were removed (line 153). *)
Definition cleared (es : list Element) (last : option Element)
  : option Element :=
  match last with
  | Some x => if decide (x ∈ es) then None else Some x
  | None => None
  end.

(** The world after the loop of [unspy] ran over [es]. *)
Definition unspied (es : list Element) (o : IntersectionObserver) (w : World)
  : World :=
  mkWorld (document w) (console w)
          (filter (λ y, y ∉ es) (targets w))
          (filter (λ y, y ∉ es) (activeTargets w))
          (cleared es (lastActiveTarget w))
          (Some (mkObserver (observerInit o)
                            (filter (λ y, y ∉ es) (observationTargets o))))
          (updates w).

(** One delivered entry (the body of the loop, lines 102-107). *)
Definition delivered (entry : IntersectionObserverEntry) (w : World) : World :=
  let x := entry_target entry in
  let w' :=
    mkWorld (document w) (console w) (targets w)
      (if isIntersecting entry
       then JsSet.delete x (activeTargets w) ++ [x]
       else JsSet.delete x (activeTargets w))
      (if isIntersecting entry then Some x else lastActiveTarget w)
      (observer w) (updates w) in
  with_updates (λ u, u ++ [snapshot w']) w'.

(** The invariant of a tracker created with ([has = true]) or without
    [IntersectionObserver]. *)
Definition tracker_inv (has : bool) (w : World) : Prop :=
  NoDup (targets w) ∧
  NoDup (activeTargets w) ∧
  active_registered w ∧
  (∀ x, lastActiveTarget w = Some x → x ∈ targets w) ∧
  (if has
   then ∃ o, observer w = Some o ∧ observationTargets o = targets w
   else observer w = None ∧ activeTargets w = [] ∧ lastActiveTarget w = None).

(** ** Identifiers in kebab case *)

Definition isLowercase (c : ascii) : bool :=
  let n := nat_of_ascii c in ((97 <=? n) && (n <=? 122))%nat.

(** A token: a non-empty word of lowercase letters. *)
Definition isToken (t : string) : bool :=
  negb (String.eqb t "") && forallb isLowercase (list_ascii_of_string t).

(** A token with its first letter in upper case. *)
Definition capitalize (t : string) : string :=
  match t with
  | EmptyString => EmptyString
  | String c rest => String (toUpperCase c) rest
  end.

(** The words after the first one, each behind its separator. *)
Fixpoint trail (sep : string) (f : string → string) (ts : list string)
  : string :=
  match ts with
  | [] => ""
  | t :: ts' => sep +:+ f t +:+ trail sep f ts'
  end.

(** ** Frame conditions *)

(** A computation that leaves the DOM as it is, whether it returns or
    throws. *)
Definition keeps_document {A} (m : JS A) : Prop :=
  ∀ w, document (world_after m w) = document w.

(** ** The colour boxes example component

    [$: activeColor = $colorBoxSpy?.activeTarget?.getAttribute("aria-label")] *)
Definition activeColor (w : World) : option string :=
  activeTarget w ≫= λ box, getAttribute (document w) box "aria-label".

(** * Properties *)

(** ** Ordered sets *)

Section JsSetFacts.
Context {A : Type} `{EqDecision A}.
Implicit Types (x y : A) (s : list A).

Lemma has_true x s : JsSet.has x s = true ↔ x ∈ s.
Proof. unfold JsSet.has. by rewrite bool_decide_eq_true. Qed.

Lemma has_false x s : JsSet.has x s = false ↔ x ∉ s.
Proof. unfold JsSet.has. by rewrite bool_decide_eq_false. Qed.

Lemma elem_of_add x y s : y ∈ JsSet.add x s ↔ y = x ∨ y ∈ s.
Proof.
  unfold JsSet.add. destruct (JsSet.has x s) eqn:E.
  - apply has_true in E. split; [intros; by right | by intros [->|]].
  - rewrite elem_of_app, list_elem_of_singleton. tauto.
Qed.

Lemma elem_of_delete x y s : y ∈ JsSet.delete x s ↔ y ≠ x ∧ y ∈ s.
Proof. unfold JsSet.delete. by rewrite list_elem_of_filter. Qed.

Lemma not_elem_of_delete x s : x ∉ JsSet.delete x s.
Proof. rewrite elem_of_delete. tauto. Qed.

Lemma delete_absent x s : x ∉ s → JsSet.delete x s = s.
Proof.
  unfold JsSet.delete. induction s as [|z s IH]; intros Hx; [done|].
  rewrite not_elem_of_cons in Hx. destruct Hx as [Hne Hx].
  rewrite filter_cons_True by congruence. by rewrite IH.
Qed.

Lemma delete_app x s1 s2 :
  JsSet.delete x (s1 ++ s2) = JsSet.delete x s1 ++ JsSet.delete x s2.
Proof. apply filter_app. Qed.

Lemma add_absent x s : x ∉ s → JsSet.add x s = s ++ [x].
Proof. intros Hx. unfold JsSet.add. by rewrite (proj2 (has_false x s)). Qed.

Lemma add_present x s : x ∈ s → JsSet.add x s = s.
Proof. intros Hx. unfold JsSet.add. by rewrite (proj2 (has_true x s)). Qed.

(** [s.delete(x); s.add(x)] moves [x] to the most recent position. *)
Lemma add_delete x s : JsSet.add x (JsSet.delete x s) = JsSet.delete x s ++ [x].
Proof. apply add_absent, not_elem_of_delete. Qed.

Lemma NoDup_add x s : NoDup s → NoDup (JsSet.add x s).
Proof.
  intros Hs. unfold JsSet.add. destruct (JsSet.has x s) eqn:E; [done|].
  apply has_false in E. apply NoDup_app. split_and!; [done| |apply NoDup_singleton].
  intros y Hy ->%list_elem_of_singleton. done.
Qed.

Lemma NoDup_delete x s : NoDup s → NoDup (JsSet.delete x s).
Proof. apply NoDup_filter. Qed.
End JsSetFacts.

(** ** Running the operations *)

Lemma filter_not_elem_of_nil (l : list Element) :
  filter (λ y, y ∉ @nil Element) l = l.
Proof.
  induction l as [|z l IH]; [done|].
  rewrite filter_cons_True by apply not_elem_of_nil. by rewrite IH.
Qed.

Lemma filter_not_elem_of_cons (e : Element) (es l : list Element) :
  filter (λ y, y ∉ es) (JsSet.delete e l) = filter (λ y, y ∉ e :: es) l.
Proof.
  unfold JsSet.delete. rewrite list_filter_filter.
  apply list_filter_iff. intros y. rewrite not_elem_of_cons. tauto.
Qed.

Lemma filter_not_elem_of_singleton (e : Element) (l : list Element) :
  filter (λ y, y ∉ [e]) l = JsSet.delete e l.
Proof.
  unfold JsSet.delete. apply list_filter_iff. intros y.
  by rewrite list_elem_of_singleton.
Qed.

Lemma unspy_elem_run w o e :
  observer w = Some o →
  unspy_elem e w = (Normal tt, unspied [e] o w).
Proof.
  intros Ho. unfold unspy_elem, unobserve, read_observer, setTargetUnactive,
    bind, modify, gets, ret, unspied, cleared. simpl. rewrite Ho. simpl.
  rewrite !filter_not_elem_of_singleton. f_equal.
  destruct (lastActiveTarget w) as [x|] eqn:El; simpl.
  - destruct (decide (Some x = Some e)) as [[= ->]|Hne].
    + rewrite decide_True by (by apply list_elem_of_singleton). reflexivity.
    + rewrite decide_False by (rewrite list_elem_of_singleton; congruence).
      unfold with_targets, with_activeTargets; simpl. by rewrite El.
  - destruct (decide (None = Some e)); [done|].
    unfold with_targets, with_activeTargets; simpl. by rewrite El.
Qed.

Lemma unspy_elem_fallback w e :
  observer w = None →
  unspy_elem e w = (Throw (ReferenceError "observer"), w).
Proof.
  intros Ho. unfold unspy_elem, unobserve, read_observer, bind. by rewrite Ho.
Qed.

Lemma unspied_nil o w :
  observer w = Some o → unspied [] o w = w.
Proof.
  intros Ho. destruct w as [d c t a l ob u]; simpl in *. subst ob.
  unfold unspied, cleared; simpl. rewrite !filter_not_elem_of_nil.
  destruct o; simpl.
  by destruct l.
Qed.

Lemma unspied_cons e es o w :
  unspied es (mkObserver (observerInit o)
                         (filter (λ y, y ∉ [e]) (observationTargets o)))
          (unspied [e] o w)
  = unspied (e :: es) o w.
Proof.
  unfold unspied; simpl. rewrite !filter_not_elem_of_singleton.
  rewrite !filter_not_elem_of_cons. f_equal.
  unfold cleared. destruct (lastActiveTarget w) as [x|]; [|done].
  destruct (decide (x ∈ [e])) as [->%list_elem_of_singleton|Hne].
  - rewrite decide_True; [done|apply elem_of_cons; by left].
  - destruct (decide (x ∈ es)).
    + rewrite decide_True; [done|apply elem_of_cons; by right].
    + rewrite decide_False; [done|].
      rewrite list_elem_of_singleton in Hne. rewrite elem_of_cons. tauto.
Qed.

Lemma for_of_unspy_elem_run es : ∀ w o,
  observer w = Some o →
  for_of es unspy_elem w = (Normal tt, unspied es o w).
Proof.
  induction es as [|e es IH]; intros w o Ho.
  - simpl. unfold ret. by rewrite unspied_nil.
  - simpl. unfold bind. rewrite (unspy_elem_run w o e Ho).
    rewrite (IH _ (mkObserver (observerInit o)
                     (filter (λ y, y ∉ [e]) (observationTargets o))))
      by done.
    by rewrite unspied_cons.
Qed.

Lemma reportUpdates_run w o :
  observer w = Some o →
  reportUpdates w = (Normal tt, with_updates (λ u, u ++ [snapshot w]) w).
Proof. intros Ho. unfold reportUpdates. by rewrite Ho. Qed.

Lemma reportUpdates_fallback w :
  observer w = None →
  reportUpdates w = (Throw (ReferenceError "reportUpdates"), w).
Proof. intros Ho. unfold reportUpdates. by rewrite Ho. Qed.

Lemma unspy_elem_path_run w o e :
  observer w = Some o →
  unspy (TElem e) w
  = (Normal tt,
     with_updates (λ u, u ++ [snapshot (unspied [e] o w)]) (unspied [e] o w)).
Proof.
  intros Ho. unfold unspy, unspy_resolve, bind, ret.
  rewrite (for_of_unspy_elem_run [e] w o Ho).
  by erewrite reportUpdates_run.
Qed.

Lemma unspy_elem_path_fallback w e :
  observer w = None →
  unspy (TElem e) w = (Throw (ReferenceError "observer"), w).
Proof.
  intros Ho. unfold unspy, unspy_resolve, bind, ret. simpl. unfold bind.
  by rewrite unspy_elem_fallback.
Qed.

Lemma unspy_id_path_none w s :
  filter (λ t, id (document w) t = s) (targets w) = [] →
  unspy (TId s) w
  = (Normal tt, with_console (λ c, c ++ [InvalidTargetNothingToUnspy s]) w).
Proof.
  intros He. unfold unspy, unspy_resolve, bind, gets, ret, console_warn, modify.
  rewrite He. reflexivity.
Qed.

Lemma unspy_id_path_run w o s :
  observer w = Some o →
  filter (λ t, id (document w) t = s) (targets w) ≠ [] →
  unspy (TId s) w
  = (Normal tt,
     let elems := filter (λ t, id (document w) t = s) (targets w) in
     let w1 := if decide (1 < length elems)
               then with_console (λ c, c ++ [MultipleTargetsFound s]) w
               else w in
     with_updates (λ u, u ++ [snapshot (unspied elems o w1)])
                  (unspied elems o w1)).
Proof.
  intros Ho He. unfold unspy, unspy_resolve, bind, gets, ret, console_warn, modify.
  destruct (decide (length (filter (λ t, id (document w) t = s) (targets w)) = 0))
    as [Hz|Hnz].
  { by apply nil_length_inv in Hz. }
  destruct (decide (1 < length (filter (λ t, id (document w) t = s) (targets w)))).
  - erewrite for_of_unspy_elem_run by exact Ho.
    by erewrite reportUpdates_run.
  - erewrite for_of_unspy_elem_run by exact Ho.
    by erewrite reportUpdates_run.
Qed.

Lemma unspyAll_run w o :
  observer w = Some o →
  unspyAll w
  = (Normal tt,
     mkWorld (document w) (console w) [] [] None
             (Some (mkObserver (observerInit o) []))
             (updates w ++ [mkSnapshot [] [] None])).
Proof.
  intros Ho. unfold unspyAll, disconnect, read_observer, bind, modify.
  rewrite Ho. reflexivity.
Qed.

Lemma unspyAll_fallback w :
  observer w = None →
  unspyAll w = (Throw (ReferenceError "observer"), w).
Proof.
  intros Ho. unfold unspyAll, disconnect, read_observer, bind. by rewrite Ho.
Qed.

Lemma resolve_run t w :
  resolve t w
  = (Normal (match t with
             | TElem e => Some e
             | TId s => getElementById (document w) s
             end), w).
Proof. by destruct t. Qed.

Lemma spy_rejected_not_found t w :
  fst (resolve t w) = Normal None →
  ∃ r, spy t w
       = (Normal r, with_console (λ c, c ++ [InvalidTargetNothingToSpyOn t]) w)
       ∧ destroy r = None.
Proof.
  rewrite resolve_run. intros [= Hr]. unfold spy, bind.
  rewrite resolve_run, Hr. by eexists.
Qed.

Lemma spy_rejected_duplicate t w elem :
  fst (resolve t w) = Normal (Some elem) → elem ∈ targets w →
  ∃ r, spy t w
       = (Normal r, with_console (λ c, c ++ [AlreadyBeingSpiedOn t]) w)
       ∧ destroy r = None.
Proof.
  rewrite resolve_run. intros [= Hr] Hin. unfold spy, bind, gets.
  rewrite resolve_run, Hr. rewrite (proj2 (has_true elem (targets w)) Hin).
  by eexists.
Qed.

Lemma spy_run t w o elem :
  observer w = Some o →
  fst (resolve t w) = Normal (Some elem) → elem ∉ targets w →
  spy t w
  = (Normal (mkActionReturn (Some (unspy (TElem elem)))),
     let w' := mkWorld (document w) (console w) (targets w ++ [elem])
                 (activeTargets w) (lastActiveTarget w)
                 (Some (mkObserver (observerInit o)
                                   (JsSet.add elem (observationTargets o))))
                 (updates w) in
     with_updates (λ u, u ++ [snapshot w']) w').
Proof.
  rewrite resolve_run. intros Ho [= Hr] Hin. unfold spy, bind, gets.
  rewrite resolve_run, Hr. rewrite (proj2 (has_false elem (targets w)) Hin).
  unfold modify, observe, read_observer, bind, with_targets; simpl. rewrite Ho.
  unfold modify, reportUpdates, ret; simpl.
  by rewrite (add_absent _ _ Hin).
Qed.

Lemma spy_fallback t w elem :
  observer w = None →
  fst (resolve t w) = Normal (Some elem) → elem ∉ targets w →
  spy t w
  = (Throw (ReferenceError "observer"), with_targets (λ ts, ts ++ [elem]) w).
Proof.
  rewrite resolve_run. intros Ho [= Hr] Hin. unfold spy, bind, gets.
  rewrite resolve_run, Hr. rewrite (proj2 (has_false elem (targets w)) Hin).
  unfold modify, observe, read_observer, bind, with_targets; simpl. rewrite Ho.
  by rewrite (add_absent _ _ Hin).
Qed.

Lemma setTargetActive_run target w :
  setTargetActive target w
  = (Normal tt,
     mkWorld (document w) (console w) (targets w)
             (JsSet.delete target (activeTargets w) ++ [target])
             (Some target) (observer w) (updates w)).
Proof.
  unfold setTargetActive, bind, modify, with_activeTargets,
    with_lastActiveTarget; simpl.
  by rewrite add_delete.
Qed.

Lemma setTargetUnactive_run target w :
  setTargetUnactive target w
  = (Normal tt,
     mkWorld (document w) (console w) (targets w)
             (JsSet.delete target (activeTargets w))
             (lastActiveTarget w) (observer w) (updates w)).
Proof. reflexivity. Qed.

Lemma observerCallback_cons entry entries w o :
  observer w = Some o →
  observerCallback (entry :: entries) w
  = observerCallback entries (delivered entry w).
Proof.
  intros Ho. unfold observerCallback; simpl. unfold bind at 1 2.
  destruct (isIntersecting entry) eqn:Ei.
  - rewrite setTargetActive_run. erewrite reportUpdates_run by exact Ho.
    unfold delivered. by rewrite Ei.
  - rewrite setTargetUnactive_run. erewrite reportUpdates_run by exact Ho.
    unfold delivered. by rewrite Ei.
Qed.

Lemma observerCallback_run entries : ∀ w o,
  observer w = Some o →
  observerCallback entries w
  = (Normal tt, foldl (λ w entry, delivered entry w) w entries).
Proof.
  induction entries as [|entry entries IH]; intros w o Ho; [done|].
  rewrite (observerCallback_cons _ _ _ o Ho). simpl.
  apply (IH _ o). by rewrite <- Ho.
Qed.

(** ** The wrapper [sectionSpy.spy] *)

Lemma sectionSpy_rejected_not_found t label w :
  fst (resolve t w) = Normal None →
  sectionSpy.spy t label w
  = (Normal (mkActionReturn None),
     with_console (λ c, c ++ [CouldNotFindTarget t]) w).
Proof.
  rewrite resolve_run. intros [= Hr]. unfold sectionSpy.spy, bind.
  by rewrite resolve_run, Hr.
Qed.

Lemma sectionSpy_rejected_no_id t label w elem :
  fst (resolve t w) = Normal (Some elem) → id (document w) elem = "" →
  sectionSpy.spy t label w
  = (Normal (mkActionReturn None),
     with_console (λ c, c ++ [ElementMustHaveAnId t]) w).
Proof.
  rewrite resolve_run. intros [= Hr] Hid. unfold sectionSpy.spy, bind, gets.
  rewrite resolve_run, Hr. by rewrite decide_True.
Qed.

Lemma sectionSpy_rejected_duplicate t label w elem :
  fst (resolve t w) = Normal (Some elem) → id (document w) elem ≠ "" →
  elem ∈ targets w →
  sectionSpy.spy t label w
  = (Normal (mkActionReturn None),
     with_console (λ c, c ++ [AlreadyBeingSpiedOn (TElem elem)]) w).
Proof.
  rewrite resolve_run. intros [= Hr] Hid Hin. unfold sectionSpy.spy, bind, gets.
  rewrite resolve_run, Hr. rewrite decide_False by done.
  destruct (spy_rejected_duplicate (TElem elem) w elem) as (r & -> & Hd);
    [done..|].
  destruct r as [h]; simpl in *; by subst.
Qed.

Lemma sectionSpy_run t label w o elem :
  observer w = Some o →
  fst (resolve t w) = Normal (Some elem) → id (document w) elem ≠ "" →
  elem ∉ targets w →
  sectionSpy.spy t label w
  = (Normal (mkActionReturn (Some (unspy (TElem elem)))),
     with_document
       (setAttribute elem "data-section-label"
          (default (kebabCaseToCapWords (id (document w) elem)) label))
       (world_after (spy (TElem elem)) w)).
Proof.
  rewrite resolve_run. intros Ho [= Hr] Hid Hin.
  unfold sectionSpy.spy, bind, gets, world_after.
  rewrite resolve_run, Hr. rewrite decide_False by done.
  by rewrite (spy_run (TElem elem) w o elem).
Qed.

Lemma sectionSpy_fallback t label w elem :
  observer w = None →
  fst (resolve t w) = Normal (Some elem) → id (document w) elem ≠ "" →
  elem ∉ targets w →
  sectionSpy.spy t label w
  = (Throw (ReferenceError "observer"), with_targets (λ ts, ts ++ [elem]) w).
Proof.
  rewrite resolve_run. intros Ho [= Hr] Hid Hin.
  unfold sectionSpy.spy, bind, gets.
  rewrite resolve_run, Hr. rewrite decide_False by done.
  by rewrite (spy_fallback (TElem elem) w elem).
Qed.

(** ** The invariant *)

Lemma tracker_inv_ext has w w' :
  tracker_state w = tracker_state w' → tracker_inv has w → tracker_inv has w'.
Proof.
  unfold tracker_state, tracker_inv, active_registered.
  intros [= -> -> -> ->]. done.
Qed.

Lemma tracker_inv_create has init d :
  tracker_inv has (createScrollSpy has init d).
Proof.
  unfold tracker_inv, active_registered, createScrollSpy; simpl.
  split_and!; try apply NoDup_nil_2; try done.
  destruct has; [by eexists|done].
Qed.

Lemma tracker_inv_unspied has w o es :
  tracker_inv has w → observer w = Some o →
  tracker_inv has (unspied es o w).
Proof.
  intros (Ht & Ha & Hsub & Hlast & Hobs) Ho.
  unfold tracker_inv, active_registered, unspied, cleared; simpl.
  split_and!.
  - by apply NoDup_filter.
  - by apply NoDup_filter.
  - intros x [Hx Hin]%list_elem_of_filter. apply list_elem_of_filter.
    split; [done|by apply Hsub].
  - intros x. destruct (lastActiveTarget w) as [y|]; [|done].
    destruct (decide (y ∈ es)); [done|]. intros [= ->].
    apply list_elem_of_filter. split; [done|by apply Hlast].
  - destruct has.
    + destruct Hobs as (o' & Ho' & Heq). eexists; split; [done|]. simpl.
      congruence.
    + destruct Hobs as (Hn & _). congruence.
Qed.

Lemma tracker_inv_unspied_logged has w w1 o es f :
  tracker_inv has w → observer w = Some o →
  tracker_state w1 = tracker_state w →
  tracker_inv has (with_updates f (unspied es o w1)).
Proof.
  intros Hinv Ho [= Ht Ha Hl Hob].
  apply (tracker_inv_ext has (unspied es o w));
    [|by apply tracker_inv_unspied].
  unfold tracker_state, unspied; simpl. by rewrite Ht, Ha, Hl.
Qed.

Lemma world_after_ret_tt {A} (m : JS A) w :
  world_after (m ;; ret tt) w = world_after m w.
Proof. unfold world_after, bind, ret. by destruct (m w) as [[a|e] w']. Qed.

Lemma tracker_inv_spy has w t :
  tracker_inv has w → tracker_inv has (world_after (spy t) w).
Proof.
  intros Hinv. unfold world_after.
  destruct (fst (resolve t w)) as [[elem|]|e] eqn:Hr.
  - destruct (decide (elem ∈ targets w)) as [Hin|Hin].
    + destruct (spy_rejected_duplicate t w elem Hr Hin) as (r & -> & _).
      by eapply tracker_inv_ext.
    + destruct (observer w) as [o|] eqn:Ho.
      * rewrite (spy_run t w o elem Ho Hr Hin). simpl.
        destruct Hinv as (Ht & Ha & Hsub & Hlast & Hobs).
        unfold tracker_inv, active_registered; simpl. split_and!.
        -- apply NoDup_app. split_and!; [done| |apply NoDup_singleton].
           by intros y Hy ->%list_elem_of_singleton.
        -- done.
        -- intros x Hx. apply elem_of_app. left. by apply Hsub.
        -- intros x Hx. apply elem_of_app. left. by apply Hlast.
        -- destruct has.
           ++ destruct Hobs as (o' & Ho' & Heq).
              assert (o' = o) as -> by congruence.
              eexists; split; [done|].
              simpl. rewrite Heq. by apply add_absent.
           ++ destruct Hobs as (Hn & _). congruence.
      * rewrite (spy_fallback t w elem Ho Hr Hin). simpl.
        destruct Hinv as (Ht & Ha & Hsub & Hlast & Hobs).
        unfold tracker_inv, active_registered; simpl. split_and!.
        -- apply NoDup_app. split_and!; [done| |apply NoDup_singleton].
           by intros y Hy ->%list_elem_of_singleton.
        -- done.
        -- intros x Hx. apply elem_of_app. left. by apply Hsub.
        -- intros x Hx. apply elem_of_app. left. by apply Hlast.
        -- destruct has; [|done].
           destruct Hobs as (o' & Ho' & _). congruence.
  - destruct (spy_rejected_not_found t w Hr) as (r & -> & _).
    by eapply tracker_inv_ext.
  - rewrite resolve_run in Hr. done.
Qed.

Lemma tracker_inv_unspy has w t :
  tracker_inv has w → tracker_inv has (world_after (unspy t) w).
Proof.
  intros Hinv. unfold world_after.
  destruct (observer w) as [o|] eqn:Ho.
  - destruct t as [s|e].
    + destruct (decide (filter (λ t, id (document w) t = s) (targets w) = []))
        as [He|He].
      * rewrite (unspy_id_path_none w s He). by eapply tracker_inv_ext.
      * rewrite (unspy_id_path_run w o s Ho He). simpl.
        apply (tracker_inv_unspied_logged has w); [done..|].
        by destruct (decide _).
    + rewrite (unspy_elem_path_run w o e Ho). simpl.
      by apply (tracker_inv_unspied_logged has w).
  - destruct t as [s|e].
    + destruct (decide (filter (λ t, id (document w) t = s) (targets w) = []))
        as [He|He].
      * rewrite (unspy_id_path_none w s He). by eapply tracker_inv_ext.
      * destruct Hinv as (Ht & Ha & Hsub & Hlast & Hobs).
        destruct has; [destruct Hobs as (o' & Ho' & _); congruence|].
        unfold unspy, unspy_resolve, bind, gets, ret, console_warn, modify.
        destruct (decide (length _ = 0)) as [Hz|Hz];
          [by apply nil_length_inv in Hz|].
        destruct (filter (λ t, id (document w) t = s) (targets w))
          as [|e es] eqn:Hf; [done|].
        destruct (decide (1 < length (e :: es))); simpl; unfold bind;
          rewrite unspy_elem_fallback by done; simpl;
          unfold tracker_inv, active_registered; simpl; done.
    + by rewrite (unspy_elem_path_fallback w e Ho).
Qed.

Lemma tracker_inv_unspyAll has w :
  tracker_inv has w → tracker_inv has (world_after unspyAll w).
Proof.
  intros Hinv. unfold world_after.
  destruct (observer w) as [o|] eqn:Ho.
  - rewrite (unspyAll_run w o Ho). simpl.
    destruct Hinv as (_ & _ & _ & _ & Hobs).
    unfold tracker_inv, active_registered; simpl.
    split_and!; try apply NoDup_nil_2; try done.
    destruct has; [by eexists|]. destruct Hobs as (Hn & _). congruence.
  - by rewrite (unspyAll_fallback w Ho).
Qed.

Lemma tracker_inv_sectionSpy has w t label :
  tracker_inv has w → tracker_inv has (world_after (sectionSpy.spy t label) w).
Proof.
  intros Hinv. unfold world_after.
  destruct (fst (resolve t w)) as [[elem|]|e] eqn:Hr.
  - destruct (decide (id (document w) elem = "")) as [Hid|Hid].
    { rewrite (sectionSpy_rejected_no_id t label w elem Hr Hid).
      by eapply tracker_inv_ext. }
    destruct (decide (elem ∈ targets w)) as [Hin|Hin].
    { rewrite (sectionSpy_rejected_duplicate t label w elem Hr Hid Hin).
      by eapply tracker_inv_ext. }
    destruct (observer w) as [o|] eqn:Ho.
    + rewrite (sectionSpy_run t label w o elem Ho Hr Hid Hin). simpl.
      eapply tracker_inv_ext; [|apply (tracker_inv_spy has w (TElem elem) Hinv)].
      done.
    + rewrite (sectionSpy_fallback t label w elem Ho Hr Hid Hin). simpl.
      pose proof (tracker_inv_spy has w (TElem elem) Hinv) as H.
      unfold world_after in H.
      by rewrite (spy_fallback (TElem elem) w elem Ho) in H.
  - rewrite (sectionSpy_rejected_not_found t label w Hr).
    by eapply tracker_inv_ext.
  - rewrite resolve_run in Hr. done.
Qed.

Lemma tracker_inv_call has w c :
  tracker_inv has w → tracker_inv has (world_after (call c) w).
Proof.
  intros Hinv. destruct c as [t|t label|t|]; simpl.
  - rewrite world_after_ret_tt. by apply tracker_inv_spy.
  - rewrite world_after_ret_tt. by apply tracker_inv_sectionSpy.
  - by apply tracker_inv_unspy.
  - by apply tracker_inv_unspyAll.
Qed.

(** One entry about a registered element keeps the invariant. *)
Lemma tracker_inv_delivered w entry :
  tracker_inv true w → entry_target entry ∈ targets w →
  tracker_inv true (delivered entry w).
Proof.
  intros (Ht & Ha & Hsub & Hlast & Hobs) Hin.
  unfold tracker_inv, active_registered, delivered; simpl.
  destruct (isIntersecting entry); split_and!; try done.
  - rewrite <- add_delete. by apply NoDup_add, NoDup_delete.
  - intros x [[_ Hx]%elem_of_delete| ->%list_elem_of_singleton]%elem_of_app;
      [by apply Hsub|done].
  - by intros x [= <-].
  - by apply NoDup_delete.
  - intros x [_ Hx]%elem_of_delete. by apply Hsub.
Qed.

Lemma tracker_inv_deliver has w entries :
  tracker_inv has w → observed w entries →
  tracker_inv has (world_after (observerCallback entries) w).
Proof.
  intros Hinv (o & Ho & Hall). unfold world_after.
  rewrite (observerCallback_run entries w o Ho). simpl.
  destruct has.
  2:{ destruct Hinv as (_ & _ & _ & _ & Hn & _). congruence. }
  revert w Hinv Ho. induction Hall as [|entry entries Hin Hall IH];
    intros w Hinv Ho; [done|].
  simpl. apply IH.
  - apply tracker_inv_delivered; [done|].
    destruct Hinv as (_ & _ & _ & _ & o' & Ho' & <-). congruence.
  - done.
Qed.

Lemma tracker_inv_dom has w d :
  tracker_inv has w → tracker_inv has (with_document (λ _, d) w).
Proof. by apply tracker_inv_ext. Qed.

Lemma reachable_inv has w : reachable has w → tracker_inv has w.
Proof.
  induction 1 as [init d|w c _ IH|w entries _ IH Hobs|w d _ IH].
  - apply tracker_inv_create.
  - by apply tracker_inv_call.
  - by apply tracker_inv_deliver.
  - by apply tracker_inv_dom.
Qed.

(** ** Fallback mode: no [IntersectionObserver] *)

(** In fallback mode no element ever becomes active. *)
Lemma fallback_never_active w x :
  reachable false w → isActive w x ≠ Some true.
Proof.
  intros (_ & _ & _ & _ & _ & Ha & _)%reachable_inv.
  unfold isActive. rewrite Ha. simpl. by destruct (negb _).
Qed.

(** C1 (the code departs from the claim): a tracker created without
    [IntersectionObserver] does expose [spy], [unspy] and [unspyAll], but they
    read the [observer] binding that was never initialised.  Registering an
    element that is not yet registered adds it to [targets] and then raises;
    [unspy] of an element and [unspyAll] raise too. *)
Theorem fallback_spy_throws init d (e : Element) :
  let w := createScrollSpy false init d in
  result_of (spy (TElem e)) w = Throw (ReferenceError "observer") ∧
  targets (world_after (spy (TElem e)) w) = [e] ∧
  result_of (unspy (TElem e)) w = Throw (ReferenceError "observer") ∧
  result_of unspyAll w = Throw (ReferenceError "observer").
Proof.
  intros w. unfold result_of, world_after.
  rewrite (spy_fallback (TElem e) w e), (unspy_elem_path_fallback w e),
    (unspyAll_fallback w); try done.
  apply not_elem_of_nil.
Qed.

(** ** The active set and the registration set *)

Lemma active_registered_ext w w' :
  targets w = targets w' → activeTargets w = activeTargets w' →
  active_registered w → active_registered w'.
Proof. unfold active_registered. by intros -> ->. Qed.

Lemma active_registered_unspied w o es :
  active_registered w → active_registered (unspied es o w).
Proof.
  unfold active_registered, unspied; simpl.
  intros Hsub x [Hx Hin]%list_elem_of_filter. apply list_elem_of_filter.
  split; [done|by apply Hsub].
Qed.

Lemma active_registered_unspied_logged w w1 o es f :
  active_registered w →
  targets w1 = targets w → activeTargets w1 = activeTargets w →
  active_registered (with_updates f (unspied es o w1)).
Proof.
  intros Hsub Ht Ha.
  apply (active_registered_ext (unspied es o w));
    [| |by apply active_registered_unspied];
    unfold unspied; simpl; congruence.
Qed.



Lemma unspy_fallback_frame w t :
  observer w = None →
  targets (world_after (unspy t) w) = targets w ∧
  activeTargets (world_after (unspy t) w) = activeTargets w ∧
  lastActiveTarget (world_after (unspy t) w) = lastActiveTarget w ∧
  observer (world_after (unspy t) w) = None ∧
  updates (world_after (unspy t) w) = updates w.
Proof.
  intros Ho. unfold world_after. destruct t as [s|e].
  - destruct (decide (filter (λ t, id (document w) t = s) (targets w) = []))
      as [He|He].
    + by rewrite (unspy_id_path_none w s He).
    + unfold unspy, unspy_resolve, bind, gets, ret, console_warn, modify.
      destruct (decide (length _ = 0)) as [Hz|Hz];
        [by apply nil_length_inv in Hz|].
      destruct (filter (λ t, id (document w) t = s) (targets w))
        as [|e es] eqn:Hf; [done|].
      destruct (decide (1 < length (e :: es))); simpl; unfold bind;
        by rewrite unspy_elem_fallback.
  - by rewrite (unspy_elem_path_fallback w e Ho).
Qed.



Lemma active_registered_delivered w entry :
  active_registered w →
  (isIntersecting entry = true → entry_target entry ∈ targets w) →
  active_registered (delivered entry w).
Proof.
  unfold active_registered, delivered; simpl. intros Hsub Hin.
  destruct (isIntersecting entry).
  - intros x [[_ Hx]%elem_of_delete| ->%list_elem_of_singleton]%elem_of_app;
      [by apply Hsub|by apply Hin].
  - intros x [_ Hx]%elem_of_delete. by apply Hsub.
Qed.




(** ** The handle returned by [spy] *)

Lemma spy_inv t w r w' h :
  spy t w = (Normal r, w') → destroy r = Some h →
  ∃ elem o,
    fst (resolve t w) = Normal (Some elem) ∧ (elem ∉ targets w) ∧
    observer w = Some o ∧ h = unspy (TElem elem) ∧
    targets w' = targets w ++ [elem].
Proof.
  intros Hs Hd.
  destruct (fst (resolve t w)) as [[elem|]|e] eqn:Hr.
  - destruct (decide (elem ∈ targets w)) as [Hin|Hin].
    + destruct (spy_rejected_duplicate t w elem Hr Hin) as (r' & Hs' & Hd').
      rewrite Hs in Hs'. injection Hs' as -> _. congruence.
    + destruct (observer w) as [o|] eqn:Ho.
      * rewrite (spy_run t w o elem Ho Hr Hin) in Hs.
        injection Hs as <- <-. simpl in Hd. injection Hd as <-.
        by exists elem, o.
      * rewrite (spy_fallback t w elem Ho Hr Hin) in Hs. done.
  - destruct (spy_rejected_not_found t w Hr) as (r' & Hs' & Hd').
    rewrite Hs in Hs'. injection Hs' as -> _. congruence.
  - rewrite resolve_run in Hr. done.
Qed.

Lemma unspied_absent w o e :
  observer w = Some o →
  e ∉ targets w → e ∉ activeTargets w → lastActiveTarget w ≠ Some e →
  e ∉ observationTargets o →
  unspied [e] o w = w.
Proof.
  intros Ho Ht Ha Hl Hob. destruct w as [d c ts acts l ob u]; simpl in *.
  subst ob. unfold unspied, cleared; simpl.
  rewrite !filter_not_elem_of_singleton, !delete_absent by done.
  destruct o; simpl. f_equal.
  destruct l as [x|]; [|done].
  rewrite decide_False; [done|]. rewrite list_elem_of_singleton. congruence.
Qed.

Lemma unspied_removes w o e :
  let w' := unspied [e] o w in
  (e ∉ targets w') ∧ (e ∉ activeTargets w') ∧ lastActiveTarget w' ≠ Some e ∧
  ∃ o', observer w' = Some o' ∧ e ∉ observationTargets o'.
Proof.
  unfold unspied, cleared; simpl. rewrite !filter_not_elem_of_singleton.
  split_and!; try apply not_elem_of_delete.
  - destruct (lastActiveTarget w) as [x|]; [|done].
    destruct (decide (x ∈ [e])) as [|Hne]; [done|].
    rewrite list_elem_of_singleton in Hne. congruence.
  - eexists; split; [done|]. simpl. apply not_elem_of_delete.
Qed.

(** [unspy] of an element that the tracker does not hold changes neither the
    sets, the pointer nor the observer. *)
Lemma unspy_absent_state w e :
  e ∉ targets w → e ∉ activeTargets w → lastActiveTarget w ≠ Some e →
  (∀ o, observer w = Some o → e ∉ observationTargets o) →
  tracker_state (world_after (unspy (TElem e)) w) = tracker_state w.
Proof.
  intros Ht Ha Hl Hob. unfold world_after.
  destruct (observer w) as [o|] eqn:Ho.
  - rewrite (unspy_elem_path_run w o e Ho). simpl.
    rewrite (unspied_absent w o e); auto.
  - by rewrite (unspy_elem_path_fallback w e Ho).
Qed.

(** C3 (amended): the handle returned by a successful [spy] is the closure
    [() => unspy(elem)] over the registered element, with no guard to run
    once: every invocation runs [unspy(elem)] and, with an observer, broadcasts
    one update.  The first invocation unregisters the element.  An invocation
    directly after another, and an invocation in any reachable state in which
    the element is not registered, leave the sets, the pointer and the
    observer as they are. *)
Theorem destroy_handle_unspies_its_element t w r w' h :
  spy t w = (Normal r, w') → destroy r = Some h →
  ∃ elem,
    fst (resolve t w) = Normal (Some elem) ∧
    (elem ∉ targets w) ∧ elem ∈ targets w' ∧
    h = unspy (TElem elem) ∧
    (elem ∉ targets (world_after h w')) ∧
    (∀ w1, tracker_state (world_after h (world_after h w1))
           = tracker_state (world_after h w1)) ∧
    (∀ has w2, reachable has w2 → elem ∉ targets w2 →
               tracker_state (world_after h w2) = tracker_state w2) ∧
    (∀ w3 o, observer w3 = Some o →
             result_of h w3 = Normal tt ∧
             updates (world_after h w3)
             = updates w3 ++ [snapshot (world_after h w3)]).
Proof.
  intros Hs Hd.
  destruct (spy_inv t w r w' h Hs Hd) as (elem & o & Hr & Hin & Ho & -> & Ht).
  exists elem. split_and!; try done.
  - rewrite Ht. apply elem_of_app. right. by apply list_elem_of_singleton.
  - assert (∃ o', observer w' = Some o') as [o' Ho'].
    { rewrite (spy_run t w o elem Ho Hr Hin) in Hs. injection Hs as _ <-.
      by eexists. }
    unfold world_after. rewrite (unspy_elem_path_run w' o' elem Ho'). simpl.
    rewrite filter_not_elem_of_singleton. apply not_elem_of_delete.
  - intros w1. destruct (observer w1) as [o1|] eqn:Ho1.
    + unfold world_after at 2 3. rewrite (unspy_elem_path_run w1 o1 elem Ho1).
      destruct (unspied_removes w1 o1 elem) as (H1 & H2 & H3 & o2 & H4 & H5).
      apply unspy_absent_state; simpl; try done.
      intros o3 Ho3. simpl in H4. congruence.
    + unfold world_after at 2 3.
      rewrite (unspy_elem_path_fallback w1 elem Ho1). simpl.
      unfold world_after. by rewrite (unspy_elem_path_fallback w1 elem Ho1).
  - intros has w2 Hreach Hnot.
    destruct (reachable_inv has w2 Hreach) as (_ & _ & Hsub & Hlast & Hobs).
    apply unspy_absent_state; try done.
    + intros Hx. by apply Hnot, Hsub.
    + intros Hx. by apply Hnot, Hlast.
    + intros o2 Ho2. destruct has.
      * destruct Hobs as (o3 & Ho3 & Heq). congruence.
      * destruct Hobs as (Hn & _). congruence.
  - intros w3 o3 Ho3. unfold result_of, world_after.
    by rewrite (unspy_elem_path_run w3 o3 elem Ho3).
Qed.

Lemma destroy_handle_unspies_its_element_witness :
  let w := createScrollSpy true None intro_page in
  let h := unspy (TElem 1) in
  let w' := world_after (spy (TElem 1)) w in
  spy (TElem 1) w = (Normal (mkActionReturn (Some h)), w') ∧
  ∃ elem,
    h = unspy (TElem elem) ∧
    (elem ∉ targets (world_after h w')) ∧
    tracker_state (world_after h (world_after h w'))
    = tracker_state (world_after h w').
Proof.
  intros w h w'. split; [reflexivity|].
  destruct (destroy_handle_unspies_its_element (TElem 1) w
              (mkActionReturn (Some h)) w' h eq_refl eq_refl)
    as (elem & _ & _ & _ & Hh & Hgone & Htwice & _).
  exists elem. split_and!; [exact Hh|exact Hgone|exact (Htwice w')].
Defined.

(** C3 (as stated, refuted): the handle is not spent by its first invocation.
    After the element was registered again, invoking the old handle
    unregisters it once more. *)
Lemma destroy_handle_runs_again :
  let w0 := createScrollSpy true None intro_page in
  ∃ r h,
    result_of (spy (TElem 1)) w0 = Normal r ∧ destroy r = Some h ∧
    let w1 := world_after (spy (TElem 1)) w0 in
    let w2 := world_after h w1 in
    let w3 := world_after (spy (TElem 1)) w2 in
    let w4 := world_after h w3 in
    targets w2 = [] ∧ targets w3 = [1] ∧ targets w4 = [] ∧
    tracker_state w4 ≠ tracker_state w3.
Proof.
  intros w0.
  exists (mkActionReturn (Some (unspy (TElem 1)))), (unspy (TElem 1)).
  cbv zeta. split_and!; try reflexivity.
  intros H. vm_compute in H. discriminate H.
Qed.

(** ** Visibility changes *)

Lemma deliver_one entry w o :
  observer w = Some o →
  observerCallback [entry] w = (Normal tt, delivered entry w).
Proof. intros Ho. by rewrite (observerCallback_run [entry] w o Ho). Qed.

(** C4: for distinct elements [a] and [b], an activation entry for [a] then
    one for [b] leaves them, in this order, at the most recent end of the
    active set (the whole of it when nothing else was active), a further
    activation entry for [a] swaps them, and every activation entry sets
    [lastActiveTarget] to its target. *)
Theorem activation_reorders_to_most_recent w o (a b : Element) :
  observer w = Some o → a ≠ b →
  let activate x := observerCallback [mkEntry x true] in
  let w1 := world_after (activate a) w in
  let w2 := world_after (activate b) w1 in
  let w3 := world_after (activate a) w2 in
  let rest := filter (λ y, y ∉ [a; b]) (activeTargets w) in
  activeTargets w2 = rest ++ [a; b] ∧
  activeTargets w3 = rest ++ [b; a] ∧
  (activeTargets w = [] →
   activeTargets w2 = [a; b] ∧ activeTargets w3 = [b; a]) ∧
  lastActiveTarget w1 = Some a ∧
  lastActiveTarget w2 = Some b ∧
  lastActiveTarget w3 = Some a ∧
  (∀ w' x, lastActiveTarget (world_after (activate x) w') = Some x).
Proof.
  intros Ho Hab activate w1 w2 w3 rest.
  assert (Hw1 : w1 = delivered (mkEntry a true) w).
  { unfold w1, activate, world_after. by rewrite (deliver_one _ w o Ho). }
  assert (Hw2 : w2 = delivered (mkEntry b true) w1).
  { unfold w2, activate, world_after.
    by rewrite (deliver_one _ w1 o) by (by rewrite Hw1). }
  assert (Hw3 : w3 = delivered (mkEntry a true) w2).
  { unfold w3, activate, world_after.
    by rewrite (deliver_one _ w2 o) by (by rewrite Hw2, Hw1). }
  assert (H2 : activeTargets w2 = rest ++ [a; b]).
  { rewrite Hw2, Hw1. unfold delivered; simpl.
    rewrite delete_app. unfold rest. rewrite <- filter_not_elem_of_cons.
    rewrite filter_not_elem_of_singleton.
    rewrite (delete_absent b [a])
      by (rewrite list_elem_of_singleton; congruence).
    by rewrite <- app_assoc. }
  assert (H3 : activeTargets w3 = rest ++ [b; a]).
  { rewrite Hw3. unfold delivered at 1; simpl. rewrite H2.
    rewrite delete_app. rewrite (delete_absent a rest).
    - unfold JsSet.delete. rewrite filter_cons_False by tauto.
      rewrite filter_cons_True by congruence. simpl.
      by rewrite <- app_assoc.
    - unfold rest. rewrite list_elem_of_filter, elem_of_cons. tauto. }
  split_and!; try done.
  - intros Hnil. unfold rest in *. rewrite Hnil in *. by rewrite H2, H3.
  - by rewrite Hw1.
  - by rewrite Hw2.
  - by rewrite Hw3.
  - intros w' x. unfold activate, world_after, observerCallback; simpl.
    unfold bind. rewrite setTargetActive_run.
    unfold reportUpdates; simpl. by destruct (observer w').
Qed.

Lemma activation_reorders_to_most_recent_witness :
  let w := world_after (spy (TElem 1) ;; spy (TElem 2))
             (createScrollSpy true None intro_page) in
  let activate x := observerCallback [mkEntry x true] in
  let w2 := world_after (activate 2) (world_after (activate 1) w) in
  activeTargets w2 = [1; 2] ∧
  activeTargets (world_after (activate 1) w2) = [2; 1].
Proof.
  intros w activate w2.
  destruct (activation_reorders_to_most_recent w (mkObserver None [1; 2]) 1 2
              eq_refl ltac:(discriminate))
    as (_ & _ & H & _).
  exact (H eq_refl).
Defined.

(** C5: [isActive] is [true] on the active set, [false] on the registered
    elements outside it and [null] on the others; in every reachable state
    the others are exactly the elements that are not registered. *)
Theorem isActive_three_valued has w (x : Element) :
  reachable has w →
  (x ∈ activeTargets w → isActive w x = Some true) ∧
  (x ∈ targets w → x ∉ activeTargets w → isActive w x = Some false) ∧
  (x ∉ targets w → isActive w x = None) ∧
  (isActive w x = Some true ↔ x ∈ activeTargets w) ∧
  (isActive w x = Some false ↔ x ∈ targets w ∧ x ∉ activeTargets w) ∧
  (isActive w x = None ↔ x ∉ targets w).
Proof.
  intros (_ & _ & Hsub & _)%reachable_inv. unfold isActive.
  destruct (JsSet.has x (activeTargets w)) eqn:Ea;
    destruct (JsSet.has x (targets w)) eqn:Et; simpl.
  - apply has_true in Ea. apply has_true in Et. intuition congruence.
  - apply has_true in Ea. apply has_false in Et. exfalso. by apply Et, Hsub.
  - apply has_false in Ea. apply has_true in Et. intuition congruence.
  - apply has_false in Ea. apply has_false in Et. intuition congruence.
Qed.

Lemma isActive_three_valued_witness :
  let w := world_after (call (CallSpy (TElem 1)))
             (createScrollSpy true None intro_page) in
  isActive w 1 = Some false ∧ isActive w 2 = None.
Proof.
  intros w.
  destruct (isActive_three_valued true w 1
              (reachable_call true _ _ (reachable_create true None intro_page)))
    as (_ & H1 & _).
  destruct (isActive_three_valued true w 2
              (reachable_call true _ _ (reachable_create true None intro_page)))
    as (_ & _ & H2 & _).
  split.
  - apply H1; [apply list_elem_of_singleton; reflexivity|apply not_elem_of_nil].
  - apply H2. intros H. apply (list_elem_of_singleton (A:=Element) 2 1) in H.
    discriminate H.
Defined.

(** C6: a deactivation entry removes its target from the active set, keeps
    the other active elements in their order, and leaves the registration
    set, [lastActiveTarget] (also when it is the deactivated element), the
    observer and the DOM as they were; one update is broadcast. *)
Theorem deactivation_only_leaves_active_set w o (x : Element) :
  observer w = Some o →
  let w' := world_after (observerCallback [mkEntry x false]) w in
  activeTargets w' = filter (λ y, y ≠ x) (activeTargets w) ∧
  (x ∉ activeTargets w') ∧
  (x ∉ activeTargets w → activeTargets w' = activeTargets w) ∧
  targets w' = targets w ∧
  lastActiveTarget w' = lastActiveTarget w ∧
  (lastActiveTarget w = Some x → lastActiveTarget w' = Some x) ∧
  observer w' = observer w ∧
  document w' = document w ∧
  console w' = console w ∧
  updates w' = updates w ++ [snapshot w'].
Proof.
  intros Ho w'. unfold w', world_after.
  rewrite (deliver_one _ w o Ho). unfold delivered; simpl.
  split_and!; try done.
  - apply not_elem_of_delete.
  - apply delete_absent.
Qed.

Lemma deactivation_only_leaves_active_set_witness :
  let w := world_after (spy (TElem 1) ;; spy (TElem 2) ;;
                        observerCallback [mkEntry 1 true; mkEntry 2 true])
             (createScrollSpy true None intro_page) in
  let w' := world_after (observerCallback [mkEntry 2 false]) w in
  lastActiveTarget w = Some 2 ∧
  activeTargets w' = [1] ∧ lastActiveTarget w' = Some 2 ∧
  targets w' = [1; 2].
Proof.
  intros w w'.
  destruct (deactivation_only_leaves_active_set w (mkObserver None [1; 2]) 2
              eq_refl)
    as (Ha & _ & _ & Ht & Hl & _).
  split_and!; [reflexivity|exact Ha|exact Hl|exact Ht].
Defined.

(** ** Unregistration *)

(** C7: [unspy] of an element removes it from the registration set and from
    the active set, and clears [lastActiveTarget] exactly when it referenced
    that element; [unspy] of an identifier does so for every registered
    element carrying the identifier. *)
Theorem unspy_clears_pointer_iff_referenced w o :
  observer w = Some o →
  (∀ x : Element,
     let w' := world_after (unspy (TElem x)) w in
     (lastActiveTarget w = Some x → lastActiveTarget w' = None) ∧
     (lastActiveTarget w ≠ Some x → lastActiveTarget w' = lastActiveTarget w) ∧
     (∀ y, y ≠ x → lastActiveTarget w = Some y →
           lastActiveTarget w' = Some y) ∧
     (x ∉ targets w') ∧ (x ∉ activeTargets w') ∧
     targets w' = filter (λ y, y ≠ x) (targets w) ∧
     activeTargets w' = filter (λ y, y ≠ x) (activeTargets w)) ∧
  (∀ s : string,
     let w' := world_after (unspy (TId s)) w in
     let elems := filter (λ t, id (document w) t = s) (targets w) in
     lastActiveTarget w' = cleared elems (lastActiveTarget w) ∧
     targets w' = filter (λ y, y ∉ elems) (targets w) ∧
     activeTargets w' = filter (λ y, y ∉ elems) (activeTargets w)).
Proof.
  intros Ho. split.
  - intros x w'. unfold w', world_after.
    rewrite (unspy_elem_path_run w o x Ho). simpl.
    rewrite !filter_not_elem_of_singleton. unfold cleared.
    split_and!; try done; try apply not_elem_of_delete.
    + intros ->. by rewrite decide_True by (by apply list_elem_of_singleton).
    + intros Hne. destruct (lastActiveTarget w) as [y|]; [|done].
      rewrite decide_False; [done|]. rewrite list_elem_of_singleton. congruence.
    + intros y Hne ->. rewrite decide_False; [done|].
      by rewrite list_elem_of_singleton.
  - intros s w' elems. unfold w', world_after.
    destruct (decide (elems = [])) as [He|He].
    + rewrite (unspy_id_path_none w s He). simpl. fold elems. rewrite He.
      rewrite !filter_not_elem_of_nil. unfold cleared.
      by destruct (lastActiveTarget w).
    + rewrite (unspy_id_path_run w o s Ho He). simpl. fold elems.
      by destruct (decide (1 < length elems)).
Qed.

Lemma unspy_clears_pointer_iff_referenced_witness :
  let w := world_after (spy (TElem 1) ;; spy (TElem 2) ;;
                        observerCallback [mkEntry 1 true; mkEntry 2 true])
             (createScrollSpy true None intro_page) in
  lastActiveTarget w = Some 2 ∧
  lastActiveTarget (world_after (unspy (TElem 2)) w) = None ∧
  lastActiveTarget (world_after (unspy (TElem 1)) w) = Some 2 ∧
  targets (world_after (unspy (TElem 1)) w) = [2].
Proof.
  intros w.
  destruct (unspy_clears_pointer_iff_referenced w (mkObserver None [1; 2])
              eq_refl) as [He _].
  destruct (He 2) as (H2 & _).
  destruct (He 1) as (_ & _ & H1 & _ & _ & Ht & _).
  split_and!; [reflexivity|exact (H2 eq_refl)| |exact Ht].
  apply (H1 2); [discriminate|reflexivity].
Defined.

(** C8 (amended): with an observer, [unspy] returns normally and broadcasts
    exactly one update, which shows the state reached after all the resolved
    elements were removed, when it is given an element (registered or not)
    or an identifier that at least one registered element carries.  Given an
    identifier that no registered element carries, it warns, changes nothing
    and broadcasts no update. *)
Theorem unspy_broadcasts_once_unless_no_match w o t :
  observer w = Some o →
  let w' := world_after (unspy t) w in
  result_of (unspy t) w = Normal tt ∧
  match t with
  | TElem e =>
      updates w' = updates w ++ [snapshot w'] ∧
      targets w' = filter (λ y, y ≠ e) (targets w)
  | TId s =>
      let elems := filter (λ t, id (document w) t = s) (targets w) in
      if decide (elems = [])
      then updates w' = updates w ∧
           tracker_state w' = tracker_state w ∧
           console w' = console w ++ [InvalidTargetNothingToUnspy s]
      else updates w' = updates w ++ [snapshot w'] ∧
           targets w' = filter (λ y, y ∉ elems) (targets w)
  end.
Proof.
  intros Ho w'. unfold w', world_after, result_of. destruct t as [s|e].
  - cbv zeta.
    destruct (decide (filter (λ t, id (document w) t = s) (targets w) = []))
      as [He|He].
    + by rewrite (unspy_id_path_none w s He).
    + rewrite (unspy_id_path_run w o s Ho He). simpl.
      by destruct (decide (1 < _)).
  - rewrite (unspy_elem_path_run w o e Ho). simpl.
    by rewrite !filter_not_elem_of_singleton.
Qed.

Lemma unspy_broadcasts_once_unless_no_match_witness :
  let w := world_after (sectionSpy.spy (TElem 2) None ;;
                        sectionSpy.spy (TElem 3) None)
             (sectionSpy.create true intro_page) in
  let w' := world_after (unspy (TId "usage")) w in
  targets w = [2; 3] ∧
  updates w' = updates w ++ [snapshot w'] ∧ targets w' = [].
Proof.
  intros w w'.
  pose proof (unspy_broadcasts_once_unless_no_match w
                (mkObserver (Some sectionSpy.observerInit) [2; 3])
                (TId "usage") eq_refl) as [_ H].
  split; [reflexivity|].
  exact H.
Defined.

(** C8 (as stated, refuted): [unspy] of an identifier without a registered
    match returns without broadcasting. *)
Lemma unspy_without_match_is_silent :
  let w := world_after (spy (TElem 1)) (createScrollSpy true None intro_page) in
  let w' := world_after (unspy (TId "nope")) w in
  result_of (unspy (TId "nope")) w = Normal tt ∧
  length (updates w) = 1 ∧ length (updates w') = 1 ∧ updates w' = updates w.
Proof. cbv zeta. split_and!; reflexivity. Qed.

(** ** Labels of sections *)

Lemma isLowercase_not_hyphen c : isLowercase c = true → Ascii.eqb c "-" = false.
Proof.
  intros Hc. apply Ascii.eqb_neq. intros ->. vm_compute in Hc. discriminate.
Qed.

Lemma isLowercase_not_terminator c :
  isLowercase c = true → isLineTerminator c = false.
Proof.
  intros Hc. unfold isLineTerminator. apply orb_false_intro;
    apply Ascii.eqb_neq; intros ->; vm_compute in Hc; discriminate.
Qed.

Lemma replace_hyphen_any_other c rest :
  Ascii.eqb c "-" = false →
  replace_hyphen_any (String c rest) = String c (replace_hyphen_any rest).
Proof. intros Hc. simpl. rewrite Hc. by destruct rest. Qed.

Lemma replace_hyphen_any_word t r :
  forallb isLowercase (list_ascii_of_string t) = true →
  replace_hyphen_any (t +:+ r) = t +:+ replace_hyphen_any r.
Proof.
  induction t as [|c t IH]; intros Ht; [done|].
  simpl in Ht. apply andb_true_iff in Ht as [Hc Ht].
  change (String c t +:+ r) with (String c (t +:+ r)).
  rewrite replace_hyphen_any_other by by apply isLowercase_not_hyphen.
  by rewrite IH.
Qed.

Lemma replace_hyphen_any_token t r :
  isToken t = true →
  replace_hyphen_any ("-" +:+ t +:+ r)
  = " " +:+ capitalize t +:+ replace_hyphen_any r.
Proof.
  unfold isToken. intros [Hne Ht]%andb_true_iff.
  destruct t as [|c t]; [done|].
  simpl in Ht. apply andb_true_iff in Ht as [Hc Ht].
  change ("-" +:+ String c t +:+ r) with (String "-" (String c (t +:+ r))).
  cbn [replace_hyphen_any]. rewrite (isLowercase_not_terminator c Hc).
  simpl. by rewrite replace_hyphen_any_word.
Qed.

Lemma string_app_empty_r (s : string) : s +:+ "" = s.
Proof.
  induction s as [|c s IH]; [done|].
  change (String c (s +:+ "") = String c s). by rewrite IH.
Qed.

Lemma concat_trail sep f t ts :
  String.concat sep (map f (t :: ts)) = f t +:+ trail sep f ts.
Proof.
  revert t. induction ts as [|t' ts IH]; intros t; simpl.
  - by rewrite string_app_empty_r.
  - f_equal. f_equal. apply IH.
Qed.

Lemma replace_hyphen_any_trail ts :
  forallb isToken ts = true →
  replace_hyphen_any (trail "-" (λ t, t) ts) = trail " " capitalize ts.
Proof.
  induction ts as [|t ts IH]; intros Hts; [done|].
  simpl in Hts. apply andb_true_iff in Hts as [Ht Hts].
  cbn [trail]. rewrite (replace_hyphen_any_token t _ Ht). by rewrite IH.
Qed.

Lemma kebabCaseToCapWords_tokens ts :
  ts ≠ [] → forallb isToken ts = true →
  kebabCaseToCapWords (String.concat "-" ts)
  = String.concat " " (map capitalize ts).
Proof.
  intros Hne Hts. destruct ts as [|t ts]; [done|].
  simpl in Hts. apply andb_true_iff in Hts as [Ht Hts].
  rewrite <- (map_id (t :: ts)) at 1.
  rewrite !concat_trail. unfold kebabCaseToCapWords.
  unfold isToken in Ht. apply andb_true_iff in Ht as [Hnil Ht].
  rewrite (replace_hyphen_any_word t _ Ht).
  rewrite (replace_hyphen_any_trail ts Hts).
  destruct t as [|c t]; [done|].
  simpl in Ht. apply andb_true_iff in Ht as [Hc _].
  simpl. by rewrite (isLowercase_not_terminator c Hc).
Qed.

Lemma concat_tokens_nonempty ts :
  ts ≠ [] → forallb isToken ts = true → String.concat "-" ts ≠ "".
Proof.
  intros Hne Hts. destruct ts as [|t ts]; [done|].
  simpl in Hts. apply andb_true_iff in Hts as [Ht _].
  unfold isToken in Ht. apply andb_true_iff in Ht as [Hnil _].
  destruct t as [|c t]; [done|]. by destruct ts.
Qed.

Lemma getAttribute_setAttribute d e name value :
  getAttribute (setAttribute e name value d) e name = Some value.
Proof.
  unfold getAttribute, setAttribute; simpl.
  rewrite lookup_total_insert_eq. apply lookup_insert_eq.
Qed.

(** C9: when [sectionSpy.spy] registers, without an explicit label, an
    element whose id is a hyphen-separated sequence of lowercase tokens, the
    [data-section-label] attribute it writes is the tokens, each capitalized,
    joined by spaces; for [intro-section] it is [Intro Section]. *)
Theorem sectionSpy_derives_label t w o elem ts :
  observer w = Some o →
  fst (resolve t w) = Normal (Some elem) → elem ∉ targets w →
  ts ≠ [] → forallb isToken ts = true →
  id (document w) elem = String.concat "-" ts →
  let w' := world_after (sectionSpy.spy t None) w in
  kebabCaseToCapWords (id (document w) elem)
  = String.concat " " (map capitalize ts) ∧
  getAttribute (document w') elem "data-section-label"
  = Some (String.concat " " (map capitalize ts)) ∧
  elem ∈ targets w' ∧
  kebabCaseToCapWords "intro-section" = "Intro Section".
Proof.
  intros Ho Hr Hin Hne Hts Hid w'.
  assert (Hid' : id (document w) elem ≠ "").
  { rewrite Hid. by apply concat_tokens_nonempty. }
  unfold w', world_after.
  rewrite (sectionSpy_run t None w o elem Ho Hr Hid' Hin). simpl.
  rewrite Hid, (kebabCaseToCapWords_tokens ts Hne Hts).
  split_and!; try done.
  - unfold world_after. rewrite (spy_run (TElem elem) w o elem Ho eq_refl Hin).
    apply getAttribute_setAttribute.
  - unfold world_after. rewrite (spy_run (TElem elem) w o elem Ho eq_refl Hin).
    simpl. apply elem_of_app. right. by apply list_elem_of_singleton.
Qed.

Lemma sectionSpy_derives_label_witness :
  let w := sectionSpy.create true intro_page in
  let w' := world_after (sectionSpy.spy (TId "intro-section") None) w in
  id (document w) 1 = "intro-section" ∧
  getAttribute (document w') 1 "data-section-label" = Some "Intro Section".
Proof.
  intros w w'. split; [reflexivity|].
  destruct (sectionSpy_derives_label (TId "intro-section") w
              (mkObserver (Some sectionSpy.observerInit) []) 1
              ["intro"; "section"] eq_refl eq_refl (not_elem_of_nil 1)
              ltac:(discriminate) eq_refl eq_refl)
    as (_ & H & _).
  exact H.
Defined.

(** C10: [sectionSpy.spy] writes [data-section-label] exactly when the
    wrapped [spy] returned a [destroy] handle, which it passes on.  When the
    target is not found, the element has no id or the element is already
    registered, and whenever no handle is returned, the DOM is left as it
    was. *)
Theorem sectionSpy_labels_only_registered t label w :
  let w' := world_after (sectionSpy.spy t label) w in
  let result := result_of (sectionSpy.spy t label) w in
  (fst (resolve t w) = Normal None →
   result = Normal (mkActionReturn None) ∧ document w' = document w) ∧
  (∀ elem, fst (resolve t w) = Normal (Some elem) →
           id (document w) elem = "" →
           result = Normal (mkActionReturn None) ∧
           document w' = document w) ∧
  (∀ elem, fst (resolve t w) = Normal (Some elem) → elem ∈ targets w →
           result = Normal (mkActionReturn None) ∧
           document w' = document w) ∧
  (∀ r h, result = Normal r → destroy r = Some h →
          ∃ elem,
            fst (resolve t w) = Normal (Some elem) ∧
            result_of (spy (TElem elem)) w
            = Normal (mkActionReturn (Some h)) ∧
            document w'
            = setAttribute elem "data-section-label"
                (default (kebabCaseToCapWords (id (document w) elem)) label)
                (document w)) ∧
  (∀ r, result = Normal r → destroy r = None → document w' = document w) ∧
  (∀ e, result = Throw e → document w' = document w).
Proof.
  intros w' result. unfold w', result, world_after, result_of.
  destruct (fst (resolve t w)) as [[elem|]|e] eqn:Hr.
  - destruct (decide (id (document w) elem = "")) as [Hid|Hid].
    { rewrite (sectionSpy_rejected_no_id t label w elem Hr Hid). simpl.
      split_and!; try done. intros r h [= <-]. done. }
    destruct (decide (elem ∈ targets w)) as [Hin|Hin].
    { rewrite (sectionSpy_rejected_duplicate t label w elem Hr Hid Hin). simpl.
      split_and!; try done. intros r h [= <-]. done. }
    destruct (observer w) as [o|] eqn:Ho.
    + rewrite (sectionSpy_run t label w o elem Ho Hr Hid Hin). simpl.
      split_and!; try done.
      * intros elem' [= <-] Hid'. done.
      * intros elem' [= <-] Hin'. done.
      * intros r h [= <-] [= <-]. exists elem. split_and!; [done| |].
        -- unfold result_of. by rewrite (spy_run (TElem elem) w o elem).
        -- unfold world_after. by rewrite (spy_run (TElem elem) w o elem).
      * intros r [= <-]. done.
    + rewrite (sectionSpy_fallback t label w elem Ho Hr Hid Hin). simpl.
      split_and!; try done.
      * intros elem' [= <-] Hid'. done.
      * intros elem' [= <-] Hin'. done.
  - rewrite (sectionSpy_rejected_not_found t label w Hr). simpl.
    split_and!; try done. intros r h [= <-]. done.
  - rewrite resolve_run in Hr. done.
Qed.

Lemma sectionSpy_labels_only_registered_witness :
  let w0 := sectionSpy.create true intro_page in
  let w := world_after (spy (TElem 2)) w0 in
  document (world_after (sectionSpy.spy (TId "nowhere") None) w)
  = document w ∧
  document (world_after (sectionSpy.spy (TElem 7) (Some "Seven")) w)
  = document w ∧
  document (world_after (sectionSpy.spy (TId "usage") (Some "Usage")) w)
  = document w ∧
  document (world_after (sectionSpy.spy (TElem 3) (Some "Usage")) w)
  = setAttribute 3 "data-section-label" "Usage" (document w).
Proof.
  intros w0 w. split_and!.
  - apply (sectionSpy_labels_only_registered (TId "nowhere") None w).
    reflexivity.
  - apply (proj1 (proj2 (sectionSpy_labels_only_registered
                           (TElem 7) (Some "Seven") w)) 7); reflexivity.
  - apply (proj1 (proj2 (proj2 (sectionSpy_labels_only_registered
                                  (TId "usage") (Some "Usage") w))) 2).
    + reflexivity.
    + apply list_elem_of_singleton. reflexivity.
  - destruct (proj1 (proj2 (proj2 (proj2 (sectionSpy_labels_only_registered
                (TElem 3) (Some "Usage") w))))
                (mkActionReturn (Some (unspy (TElem 3)))) (unspy (TElem 3))
                eq_refl eq_refl) as (elem & Hr & _ & Hd).
    injection Hr as <-. exact Hd.
Defined.

(** * Further properties of the tracker *)

(** ** Registration *)

Lemma spy_elem_normal w o e :
  observer w = Some o →
  ∃ r w' o',
    spy (TElem e) w = (Normal r, w') ∧
    targets w' = JsSet.add e (targets w) ∧
    activeTargets w' = activeTargets w ∧
    lastActiveTarget w' = lastActiveTarget w ∧
    observer w' = Some o'.
Proof.
  intros Ho. destruct (decide (e ∈ targets w)) as [Hin|Hin].
  - destruct (spy_rejected_duplicate (TElem e) w e eq_refl Hin)
      as (r & Hs & _).
    exists r, (with_console (λ c, c ++ [AlreadyBeingSpiedOn (TElem e)]) w), o.
    split_and!; try done. simpl. by rewrite add_present.
  - rewrite (spy_run (TElem e) w o e Ho eq_refl Hin).
    eexists _, _, _. split_and!; try done. simpl. by rewrite add_absent.
Qed.

Lemma foldl_add_fresh (es : list Element) : ∀ l,
  NoDup es → (∀ e, e ∈ es → e ∉ l) →
  foldl (λ s e, JsSet.add e s) l es = l ++ es.
Proof.
  induction es as [|e es IH]; intros l Hnd Hfresh; simpl.
  - by rewrite app_nil_r.
  - apply NoDup_cons in Hnd as [Hne Hnd].
    rewrite add_absent by (apply Hfresh; by left).
    rewrite IH; [by rewrite <- app_assoc|done|].
    intros e' He' [Hl| ->%list_elem_of_singleton]%elem_of_app; [|done].
    apply (Hfresh e'); [by right|done].
Qed.

(** X1: with an observer, calling [spy] on a list of elements one after the
    other returns normally and adds them to [targets] as [Set.add] does, in
    call order; when the elements are pairwise distinct and not yet
    registered, [targets] is extended by exactly that list and [amount] grows
    by its length.  The active set and [lastActiveTarget] are not touched. *)
Theorem spy_registers_in_call_order (es : list Element) : ∀ w o,
  observer w = Some o →
  let calls := for_of es (λ e, spy (TElem e) ;; ret tt) in
  let w' := world_after calls w in
  result_of calls w = Normal tt ∧
  targets w' = foldl (λ s e, JsSet.add e s) (targets w) es ∧
  (NoDup es → (∀ e, e ∈ es → e ∉ targets w) →
   targets w' = targets w ++ es ∧ amount w' = amount w + length es) ∧
  activeTargets w' = activeTargets w ∧
  lastActiveTarget w' = lastActiveTarget w.
Proof.
  assert (Hmain : ∀ w o, observer w = Some o →
    let calls := for_of es (λ e, spy (TElem e) ;; ret tt) in
    result_of calls w = Normal tt ∧
    targets (world_after calls w)
    = foldl (λ s e, JsSet.add e s) (targets w) es ∧
    activeTargets (world_after calls w) = activeTargets w ∧
    lastActiveTarget (world_after calls w) = lastActiveTarget w).
  { induction es as [|e es IH]; intros w o Ho; [done|].
    destruct (spy_elem_normal w o e Ho)
      as (r & w1 & o1 & Hs & Ht & Ha & Hl & Ho1).
    destruct (IH w1 o1 Ho1) as (Hres & Ht' & Ha' & Hl').
    cbn zeta in *. unfold result_of, world_after in *. simpl.
    unfold bind at 1 2 4 5 7 8 10 11. rewrite Hs. unfold ret at 1 3 5 7.
    rewrite Hres, Ht', Ha', Hl', Ht, Ha, Hl. done. }
  intros w o Ho calls w'.
  destruct (Hmain w o Ho) as (Hres & Ht & Ha & Hl).
  split_and!; try done.
  intros Hnd Hfresh.
  assert (Happ : targets w' = targets w ++ es).
  { unfold w', calls. rewrite Ht. by apply foldl_add_fresh. }
  split; [done|]. unfold amount. by rewrite Happ, length_app.
Qed.

Lemma spy_registers_in_call_order_witness :
  let w := world_after (spy (TElem 2)) (createScrollSpy true None intro_page) in
  let w' := world_after (for_of [3; 2; 1; 3] (λ e, spy (TElem e) ;; ret tt)) w in
  targets w' = [2; 3; 1].
Proof.
  intros w w'.
  destruct (spy_registers_in_call_order [3; 2; 1; 3] w (mkObserver None [2])
              eq_refl) as (_ & H & _).
  exact H.
Defined.

(** X2: [spy] of an element that is already registered, given itself or by
    its id, returns [{}] without a [destroy] handle and only logs a warning:
    sets, pointer, observer, DOM and broadcasts are left as they were.  This
    holds with and without an observer. *)
Theorem spy_duplicate_is_noop t w elem :
  fst (resolve t w) = Normal (Some elem) → elem ∈ targets w →
  let w' := world_after (spy t) w in
  result_of (spy t) w = Normal (mkActionReturn None) ∧
  tracker_state w' = tracker_state w ∧
  updates w' = updates w ∧
  document w' = document w ∧
  console w' = console w ++ [AlreadyBeingSpiedOn t].
Proof.
  intros Hr Hin w'. unfold w', result_of, world_after.
  destruct (spy_rejected_duplicate t w elem Hr Hin) as (r & -> & Hd).
  destruct r as [h]. simpl in *. by subst.
Qed.

Lemma spy_duplicate_is_noop_witness :
  let w := world_after (spy (TElem 1)) (createScrollSpy false None intro_page) in
  targets w = [1] ∧
  result_of (spy (TId "intro-section")) w = Normal (mkActionReturn None) ∧
  targets (world_after (spy (TId "intro-section")) w) = [1].
Proof.
  intros w.
  destruct (spy_duplicate_is_noop (TId "intro-section") w 1 eq_refl)
    as (Hres & Hst & _).
  - apply list_elem_of_singleton. reflexivity.
  - split_and!; [reflexivity|exact Hres|].
    exact (f_equal (λ p, p.1.1.1) Hst).
Defined.

Lemma getElementById_Some d s e :
  getElementById d s = Some e → id d e = s ∧ e ∈ tree d ∧ s ≠ "".
Proof.
  unfold getElementById. destruct (decide (s = "")); [done|].
  intros [Hid Hin]%head_Some_elem_of%list_elem_of_filter. done.
Qed.

(** X3: [spy] of an identifier that [document.getElementById] does not
    resolve, in particular of the empty identifier, returns [{}] without a
    handle, logs a warning and changes nothing else, with and without an
    observer. *)
Theorem spy_unresolved_is_noop s w :
  getElementById (document w) s = None →
  let w' := world_after (spy (TId s)) w in
  result_of (spy (TId s)) w = Normal (mkActionReturn None) ∧
  tracker_state w' = tracker_state w ∧
  updates w' = updates w ∧
  document w' = document w ∧
  console w' = console w ++ [InvalidTargetNothingToSpyOn (TId s)] ∧
  getElementById (document w) "" = None.
Proof.
  intros Hr w'. unfold w', result_of, world_after.
  destruct (spy_rejected_not_found (TId s) w) as (r & -> & Hd).
  { rewrite resolve_run. by rewrite Hr. }
  destruct r as [h]. simpl in *. by subst.
Qed.

Lemma spy_unresolved_is_noop_witness :
  let w := createScrollSpy true None intro_page in
  result_of (spy (TId "missing")) w = Normal (mkActionReturn None) ∧
  targets (world_after (spy (TId "missing")) w) = [].
Proof.
  intros w.
  destruct (spy_unresolved_is_noop "missing" w eq_refl)
    as (Hres & Hst & _).
  split; [exact Hres|exact (f_equal (λ p, p.1.1.1) Hst)].
Defined.

(** ** Unregistration *)

Lemma observer_eta o :
  mkObserver (observerInit o) (observationTargets o) = o.
Proof. by destruct o. Qed.

Lemma delete_snoc_fresh (e : Element) (l : list Element) :
  e ∉ l → JsSet.delete e (l ++ [e]) = l.
Proof.
  intros He. rewrite delete_app, (delete_absent e l He).
  unfold JsSet.delete. rewrite filter_cons_False by tauto. simpl.
  by rewrite app_nil_r.
Qed.

Lemma length_delete_present (e : Element) (l : list Element) :
  NoDup l → e ∈ l → S (length (JsSet.delete e l)) = length l.
Proof.
  unfold JsSet.delete. induction l as [|x l IH]; intros Hnd Hin.
  - by apply elem_of_nil in Hin.
  - apply NoDup_cons in Hnd as [Hx Hnd].
    apply elem_of_cons in Hin as [->|Hin].
    + rewrite filter_cons_False by tauto.
      fold (JsSet.delete x l). by rewrite delete_absent.
    + rewrite filter_cons_True by (intros ->; done). simpl.
      by rewrite IH.
Qed.

(** X4: with an observer, [unspyAll] returns normally from any state,
    empties the registration set, the active set and the observation targets,
    resets [lastActiveTarget], and broadcasts exactly one update, which shows
    the emptied state; afterwards [isActive] is [null] for every element. *)
Theorem unspyAll_clears_everything w o :
  observer w = Some o →
  let w' := world_after unspyAll w in
  result_of unspyAll w = Normal tt ∧
  targets w' = [] ∧ activeTargets w' = [] ∧ lastActiveTarget w' = None ∧
  observer w' = Some (mkObserver (observerInit o) []) ∧
  updates w' = updates w ++ [snapshot w'] ∧
  amount w' = 0 ∧ activeTarget w' = None ∧
  (∀ x, isActive w' x = None) ∧
  document w' = document w ∧ console w' = console w.
Proof.
  intros Ho w'. unfold w', result_of, world_after.
  by rewrite (unspyAll_run w o Ho).
Qed.

Lemma unspyAll_clears_everything_witness :
  let w := world_after (spy (TElem 1) ;; spy (TElem 2) ;;
                        observerCallback [mkEntry 1 true])
             (createScrollSpy true None intro_page) in
  isActive w 1 = Some true ∧
  isActive (world_after unspyAll w) 1 = None ∧
  targets (world_after unspyAll w) = [].
Proof.
  intros w.
  destruct (unspyAll_clears_everything w (mkObserver None [1; 2]) eq_refl)
    as (_ & Ht & _ & _ & _ & _ & _ & _ & Hi & _).
  split_and!; [reflexivity|exact (Hi 1)|exact Ht].
Defined.

(** X5: in a reachable state of a tracker with an observer, registering an
    element that is not registered and then invoking the returned [destroy]
    handle brings the sets, the pointer and the observer back to what they
    were; the two calls broadcast one update each. *)
Theorem spy_then_destroy_restores w (e : Element) :
  reachable true w → e ∉ targets w →
  ∃ h,
    result_of (spy (TElem e)) w = Normal (mkActionReturn (Some h)) ∧
    let w1 := world_after (spy (TElem e)) w in
    let w2 := world_after h w1 in
    targets w1 = targets w ++ [e] ∧
    result_of h w1 = Normal tt ∧
    tracker_state w2 = tracker_state w ∧
    length (updates w2) = length (updates w) + 2.
Proof.
  intros Hreach Hin.
  destruct (reachable_inv true w Hreach)
    as (_ & _ & Hsub & Hlast & o & Ho & Hobs).
  exists (unspy (TElem e)). unfold result_of, world_after.
  rewrite (spy_run (TElem e) w o e Ho eq_refl Hin). simpl.
  erewrite unspy_elem_path_run by reflexivity. simpl.
  split_and!; try done.
  - unfold tracker_state, unspied, cleared; simpl.
    rewrite !filter_not_elem_of_singleton.
    rewrite (delete_snoc_fresh e (targets w) Hin).
    rewrite (delete_absent e (activeTargets w))
      by (intros Hx; by apply Hin, Hsub).
    rewrite (add_absent e (observationTargets o)) by by rewrite Hobs.
    rewrite (delete_snoc_fresh e (observationTargets o)) by by rewrite Hobs.
    rewrite observer_eta, <- Ho.
    destruct (lastActiveTarget w) as [x|] eqn:El; [|done].
    rewrite decide_False; [done|].
    intros ->%list_elem_of_singleton. by apply Hin, Hlast.
  - rewrite !length_app. simpl. lia.
Qed.

Lemma spy_then_destroy_restores_witness :
  let w := world_after (call (CallSpy (TElem 1)))
             (createScrollSpy true None intro_page) in
  tracker_state (world_after (unspy (TElem 2)) (world_after (spy (TElem 2)) w))
  = tracker_state w.
Proof.
  intros w.
  destruct (spy_then_destroy_restores w 2) as (h & Hh & _ & _ & Hst & _).
  - apply reachable_call, reachable_create.
  - intros H. apply (list_elem_of_singleton (A:=Element) 2 1) in H.
    discriminate H.
  - injection Hh as <-. exact Hst.
Defined.

Lemma filter_none (P : Element → Prop) `{∀ x, Decision (P x)}
    (l : list Element) :
  (∀ x, x ∈ l → ¬ P x) → filter P l = [].
Proof.
  induction l as [|x l IH]; intros Hl; [done|].
  rewrite filter_cons_False by (apply Hl; by left).
  apply IH. intros y Hy. apply Hl. by right.
Qed.

(** X6: the same round trip by identifier.  In a reachable state of a tracker
    with an observer, when [document.getElementById(s)] is an element that is
    not registered and no registered element carries the id [s], [spy(s)]
    followed by [unspy(s)] restores the sets, the pointer and the observer,
    and logs no warning. *)
Theorem spy_unspy_by_id_restores w (s : string) (e : Element) :
  reachable true w →
  getElementById (document w) s = Some e → e ∉ targets w →
  (∀ x, x ∈ targets w → id (document w) x ≠ s) →
  let w1 := world_after (spy (TId s)) w in
  let w2 := world_after (unspy (TId s)) w1 in
  targets w1 = targets w ++ [e] ∧
  result_of (unspy (TId s)) w1 = Normal tt ∧
  tracker_state w2 = tracker_state w ∧
  console w2 = console w.
Proof.
  intros Hreach Hget Hin Hother w1 w2.
  destruct (reachable_inv true w Hreach)
    as (_ & _ & Hsub & Hlast & o & Ho & Hobs).
  destruct (getElementById_Some _ _ _ Hget) as (Hid & _ & _).
  assert (Hr : fst (resolve (TId s) w) = Normal (Some e)).
  { rewrite resolve_run. by rewrite Hget. }
  assert (Hw1 : w1 = snd (spy (TId s) w)) by done.
  rewrite (spy_run (TId s) w o e Ho Hr Hin) in Hw1. simpl in Hw1.
  assert (Hf : filter (λ t, id (document w1) t = s) (targets w1) = [e]).
  { rewrite Hw1. simpl. rewrite filter_app.
    rewrite (filter_none _ (targets w)) by done.
    by rewrite filter_cons_True. }
  assert (Ho1 : observer w1
                = Some (mkObserver (observerInit o)
                          (JsSet.add e (observationTargets o))))
    by by rewrite Hw1.
  unfold w2, result_of, world_after.
  rewrite (unspy_id_path_run w1 _ s Ho1) by (rewrite Hf; done).
  cbv zeta. rewrite Hf. simpl.
  split_and!; try done.
  - by rewrite Hw1.
  - unfold tracker_state, unspied, cleared; simpl.
    rewrite !filter_not_elem_of_singleton. rewrite Hw1; simpl.
    rewrite (delete_snoc_fresh e (targets w) Hin).
    rewrite (delete_absent e (activeTargets w))
      by (intros Hx; by apply Hin, Hsub).
    rewrite (add_absent e (observationTargets o)) by by rewrite Hobs.
    rewrite (delete_snoc_fresh e (observationTargets o)) by by rewrite Hobs.
    rewrite observer_eta, <- Ho.
    destruct (lastActiveTarget w) as [x|] eqn:El; [|done].
    rewrite decide_False; [done|].
    intros ->%list_elem_of_singleton. by apply Hin, Hlast.
  - by rewrite Hw1.
Qed.

Lemma spy_unspy_by_id_restores_witness :
  let w := world_after (call (CallSpy (TElem 2)))
             (createScrollSpy true None intro_page) in
  let w2 := world_after (unspy (TId "intro-section"))
              (world_after (spy (TId "intro-section")) w) in
  targets w = [2] ∧ tracker_state w2 = tracker_state w.
Proof.
  intros w w2. split; [reflexivity|].
  destruct (spy_unspy_by_id_restores w "intro-section" 1)
    as (_ & _ & Hst & _).
  - apply reachable_call, reachable_create.
  - reflexivity.
  - intros H. apply (list_elem_of_singleton (A:=Element) 1 2) in H.
    discriminate H.
  - intros x Hx. apply (list_elem_of_singleton (A:=Element) x 2) in Hx.
    subst x. discriminate.
  - exact Hst.
Defined.

(** X7: [amount] counts the registered elements.  In a reachable state of a
    tracker with an observer a successful [spy] raises it by one, [unspy] of
    a registered element lowers it by one, and [unspy] of an element that is
    not registered leaves it as it is. *)
Theorem amount_counts_registrations w (e : Element) :
  reachable true w →
  (e ∉ targets w → amount (world_after (spy (TElem e)) w) = S (amount w)) ∧
  (e ∈ targets w → amount (world_after (spy (TElem e)) w) = amount w) ∧
  (e ∈ targets w →
   S (amount (world_after (unspy (TElem e)) w)) = amount w) ∧
  (e ∉ targets w → amount (world_after (unspy (TElem e)) w) = amount w).
Proof.
  intros Hreach.
  destruct (reachable_inv true w Hreach) as (Hnd & _ & _ & _ & o & Ho & _).
  unfold amount, world_after. split_and!.
  - intros Hin. rewrite (spy_run (TElem e) w o e Ho eq_refl Hin). simpl.
    rewrite length_app. simpl. lia.
  - intros Hin.
    by destruct (spy_rejected_duplicate (TElem e) w e eq_refl Hin)
      as (r & -> & _).
  - intros Hin. rewrite (unspy_elem_path_run w o e Ho). simpl.
    rewrite filter_not_elem_of_singleton. by apply length_delete_present.
  - intros Hin. rewrite (unspy_elem_path_run w o e Ho). simpl.
    by rewrite filter_not_elem_of_singleton, delete_absent.
Qed.

Lemma amount_counts_registrations_witness :
  let w := world_after (call (CallSpy (TElem 1)))
             (createScrollSpy true None intro_page) in
  amount w = 1 ∧ amount (world_after (unspy (TElem 1)) w) = 0.
Proof.
  intros w. split; [reflexivity|].
  destruct (amount_counts_registrations w 1) as (_ & _ & H & _).
  - apply reachable_call, reachable_create.
  - apply eq_add_S, H. apply list_elem_of_singleton. reflexivity.
Defined.

Lemma filter_iff_on (P Q : Element → Prop)
    `{∀ x, Decision (P x)} `{∀ x, Decision (Q x)} (l : list Element) :
  (∀ x, x ∈ l → P x ↔ Q x) → filter P l = filter Q l.
Proof.
  induction l as [|x l IH]; intros Hl; [done|].
  rewrite !filter_cons.
  rewrite IH by (intros y Hy; apply Hl; by right).
  pose proof (Hl x (list_elem_of_here x l)) as Hx.
  destruct (decide (P x)), (decide (Q x)); tauto || done.
Qed.

(** X8: the warnings of [unspy], with an observer.  Given an element it logs
    nothing.  Given an identifier it logs one warning when no registered
    element carries it, one warning when several do, and nothing when exactly
    one does; in the last two cases every registered element carrying the
    identifier is removed and the others stay, in their order. *)
Theorem unspy_warnings w o :
  observer w = Some o →
  (∀ e, console (world_after (unspy (TElem e)) w) = console w) ∧
  (∀ s,
     let elems := filter (λ t, id (document w) t = s) (targets w) in
     let w' := world_after (unspy (TId s)) w in
     (elems = [] →
      console w' = console w ++ [InvalidTargetNothingToUnspy s]) ∧
     (length elems = 1 → console w' = console w) ∧
     (1 < length elems →
      console w' = console w ++ [MultipleTargetsFound s]) ∧
     targets w' = filter (λ t, id (document w) t ≠ s) (targets w)).
Proof.
  intros Ho. split.
  - intros e. unfold world_after. by rewrite (unspy_elem_path_run w o e Ho).
  - intros s. cbv zeta. unfold world_after.
    assert (Hkeep :
      filter (λ y, y ∉ filter (λ t, id (document w) t = s) (targets w))
             (targets w)
      = filter (λ t, id (document w) t ≠ s) (targets w)).
    { apply filter_iff_on. intros y Hy. rewrite list_elem_of_filter. tauto. }
    destruct (decide (filter (λ t, id (document w) t = s) (targets w) = []))
      as [He|He].
    + rewrite (unspy_id_path_none w s He). simpl.
      rewrite <- Hkeep, He, filter_not_elem_of_nil. simpl.
      split_and!; try done; lia.
    + rewrite (unspy_id_path_run w o s Ho He). simpl.
      destruct (decide (1 < length _)) as [Hm|Hm]; simpl; rewrite Hkeep;
        split_and!; try done; lia.
Qed.

Lemma unspy_warnings_witness :
  let w := world_after (spy (TElem 1) ;; spy (TElem 2) ;; spy (TElem 3))
             (createScrollSpy true None intro_page) in
  let w' := world_after (unspy (TId "usage")) w in
  console w' = [MultipleTargetsFound "usage"] ∧ targets w' = [1].
Proof.
  intros w w'.
  destruct (unspy_warnings w (mkObserver None [1; 2; 3]) eq_refl) as [_ H].
  destruct (H "usage") as (_ & _ & Hc & Ht).
  split; [|exact Ht]. apply Hc. vm_compute. constructor.
Defined.

(** ** Batches of entries *)

Lemma delivered_active entry w (y : Element) :
  y ∈ activeTargets (delivered entry w) ↔
  if decide (y = entry_target entry)
  then isIntersecting entry = true
  else y ∈ activeTargets w.
Proof.
  unfold delivered; simpl. destruct (isIntersecting entry).
  - rewrite elem_of_app, elem_of_delete, list_elem_of_singleton.
    destruct (decide (y = entry_target entry)); tauto.
  - rewrite elem_of_delete.
    destruct (decide (y = entry_target entry)); [|tauto].
    split; [tauto|done].
Qed.

Lemma delivered_all_frame entries : ∀ w,
  let w' := foldl (λ w entry, delivered entry w) w entries in
  targets w' = targets w ∧ observer w' = observer w ∧
  document w' = document w ∧ console w' = console w ∧
  length (updates w') = length (updates w) + length entries.
Proof.
  induction entries as [|entry entries IH]; intros w; simpl.
  - split_and!; try done; lia.
  - destruct (IH (delivered entry w)) as (Ht & Ho & Hd & Hc & Hu).
    rewrite Ht, Ho, Hd, Hc, Hu. unfold delivered; simpl.
    rewrite length_app. simpl. split_and!; try done; lia.
Qed.

Lemma delivered_all_untouched entries (x : Element) : ∀ w,
  (∀ entry, entry ∈ entries → entry_target entry ≠ x) →
  x ∈ activeTargets (foldl (λ w entry, delivered entry w) w entries)
  ↔ x ∈ activeTargets w.
Proof.
  induction entries as [|entry entries IH]; intros w Hx; [done|].
  simpl. rewrite IH by (intros en Hen; apply Hx; by right).
  rewrite delivered_active. rewrite decide_False; [done|].
  intros ->. by apply (Hx entry); [left|].
Qed.

(** X9: with an observer, a delivered batch is handled entry by entry: the
    callback returns normally, broadcasts one update per entry and touches
    neither the registration set, the observer, the DOM nor the console.
    After the batch an element is active exactly when its last entry in the
    batch was intersecting; an element without an entry keeps its status. *)
Theorem callback_applies_last_entry w o entries :
  observer w = Some o →
  let w' := world_after (observerCallback entries) w in
  result_of (observerCallback entries) w = Normal tt ∧
  length (updates w') = length (updates w) + length entries ∧
  targets w' = targets w ∧ observer w' = observer w ∧
  document w' = document w ∧ console w' = console w ∧
  (∀ x, (∀ entry, entry ∈ entries → entry_target entry ≠ x) →
        x ∈ activeTargets w' ↔ x ∈ activeTargets w) ∧
  (∀ before entry after,
     entries = before ++ entry :: after →
     (∀ en, en ∈ after → entry_target en ≠ entry_target entry) →
     entry_target entry ∈ activeTargets w' ↔ isIntersecting entry = true).
Proof.
  intros Ho w'. unfold w', result_of, world_after.
  rewrite (observerCallback_run entries w o Ho). simpl.
  destruct (delivered_all_frame entries w) as (Ht & Hob & Hd & Hc & Hu).
  split_and!; try done.
  - intros x Hx. by apply delivered_all_untouched.
  - intros before entry after -> Hafter.
    rewrite foldl_app. simpl.
    rewrite (delivered_all_untouched after _ _ Hafter).
    rewrite delivered_active. by rewrite decide_True.
Qed.

Lemma callback_applies_last_entry_witness :
  let w := world_after (spy (TElem 1) ;; spy (TElem 2))
             (createScrollSpy true None intro_page) in
  let batch := [mkEntry 1 true; mkEntry 2 true; mkEntry 1 false] in
  let w' := world_after (observerCallback batch) w in
  length (updates w') = length (updates w) + 3 ∧ (1 ∉ activeTargets w').
Proof.
  intros w batch w'.
  destruct (callback_applies_last_entry w (mkObserver None [1; 2]) batch
              eq_refl) as (_ & Hu & _ & _ & _ & _ & _ & Hlast).
  split; [exact Hu|].
  intros Hin.
  apply (Hlast [mkEntry 1 true; mkEntry 2 true] (mkEntry 1 false) []) in Hin.
  - discriminate Hin.
  - reflexivity.
  - intros en Hen. by apply elem_of_nil in Hen.
Defined.

(** X10: with an observer, delivering a batch in one call of the callback and
    delivering it split in two consecutive calls lead to the same state, with
    the same broadcasts. *)
Theorem callback_batches_compose w o es1 es2 :
  observer w = Some o →
  world_after (observerCallback (es1 ++ es2)) w
  = world_after (observerCallback es2) (world_after (observerCallback es1) w).
Proof.
  intros Ho. unfold world_after.
  rewrite (observerCallback_run (es1 ++ es2) w o Ho).
  rewrite (observerCallback_run es1 w o Ho). simpl.
  rewrite (observerCallback_run es2 _ o).
  - by rewrite foldl_app.
  - destruct (delivered_all_frame es1 w) as (_ & -> & _). done.
Qed.

Lemma callback_batches_compose_witness :
  let w := world_after (spy (TElem 1) ;; spy (TElem 2))
             (createScrollSpy true None intro_page) in
  world_after (observerCallback ([mkEntry 1 true] ++ [mkEntry 2 true])) w
  = world_after (observerCallback [mkEntry 2 true])
      (world_after (observerCallback [mkEntry 1 true]) w).
Proof.
  intros w.
  exact (callback_batches_compose w (mkObserver None [1; 2])
           [mkEntry 1 true] [mkEntry 2 true] eq_refl).
Defined.

Lemma delivered_all_pointer_kept entries : ∀ w,
  (∀ entry, entry ∈ entries → isIntersecting entry = false) →
  lastActiveTarget (foldl (λ w entry, delivered entry w) w entries)
  = lastActiveTarget w.
Proof.
  induction entries as [|entry entries IH]; intros w Hno; [done|].
  simpl. rewrite IH by (intros en Hen; apply Hno; by right).
  unfold delivered; simpl. by rewrite (Hno entry) by by left.
Qed.

(** X11: with an observer, after a batch [lastActiveTarget] is the target of
    the last intersecting entry of the batch; a batch without an intersecting
    entry leaves it as it was. *)
Theorem callback_sets_pointer_to_last_activation w o entries :
  observer w = Some o →
  let w' := world_after (observerCallback entries) w in
  ((∀ entry, entry ∈ entries → isIntersecting entry = false) →
   lastActiveTarget w' = lastActiveTarget w) ∧
  (∀ before entry after,
     entries = before ++ entry :: after →
     isIntersecting entry = true →
     (∀ en, en ∈ after → isIntersecting en = false) →
     lastActiveTarget w' = Some (entry_target entry)).
Proof.
  intros Ho w'. unfold w', world_after.
  rewrite (observerCallback_run entries w o Ho). simpl. split.
  - apply delivered_all_pointer_kept.
  - intros before entry after -> Hi Hafter.
    rewrite foldl_app. simpl.
    rewrite (delivered_all_pointer_kept after _ Hafter).
    unfold delivered; simpl. by rewrite Hi.
Qed.

Lemma callback_sets_pointer_to_last_activation_witness :
  let w := world_after (spy (TElem 1) ;; spy (TElem 2))
             (createScrollSpy true None intro_page) in
  let batch := [mkEntry 1 true; mkEntry 2 true; mkEntry 2 false] in
  lastActiveTarget (world_after (observerCallback batch) w) = Some 2.
Proof.
  intros w batch.
  destruct (callback_sets_pointer_to_last_activation w (mkObserver None [1; 2])
              batch eq_refl) as [_ H].
  apply (H [mkEntry 1 true] (mkEntry 2 true) [mkEntry 2 false]).
  - reflexivity.
  - reflexivity.
  - intros en Hen. apply list_elem_of_singleton in Hen. by subst en.
Defined.

(** ** The getters of the store value *)

(** X12: in every reachable state the element returned by the [activeTarget]
    getter is active and registered, and the getter returns [null] exactly
    when [isActive] is [true] for no element. *)
Theorem activeTarget_is_active has w :
  reachable has w →
  (∀ x, activeTarget w = Some x →
        isActive w x = Some true ∧ x ∈ targets w) ∧
  (activeTarget w = None ↔ ∀ x, isActive w x ≠ Some true).
Proof.
  intros (_ & _ & Hsub & _)%reachable_inv. unfold activeTarget. split.
  - intros x Hx%last_Some_elem_of. split; [|by apply Hsub].
    unfold isActive. by rewrite (proj2 (has_true x (activeTargets w)) Hx).
  - rewrite last_None. split.
    + intros Hnil x. unfold isActive. rewrite Hnil. simpl.
      by destruct (negb _).
    + intros Hno. destruct (activeTargets w) as [|x l] eqn:Ea; [done|].
      exfalso. apply (Hno x). unfold isActive. rewrite Ea.
      rewrite (proj2 (has_true x (x :: l))); [done|by left].
Qed.

Lemma activeTarget_is_active_witness :
  let w := world_after (observerCallback [mkEntry 1 true])
             (world_after (call (CallSpy (TElem 1)))
                (createScrollSpy true None intro_page)) in
  activeTarget w = Some 1 ∧ isActive w 1 = Some true.
Proof.
  intros w. split; [reflexivity|].
  assert (Hreach : reachable true w).
  { apply reachable_deliver; [apply reachable_call, reachable_create|].
    exists (mkObserver None [1]). split; [reflexivity|].
    apply Forall_cons. split; [|apply Forall_nil_2].
    apply list_elem_of_singleton. reflexivity. }
  destruct (activeTarget_is_active true w Hreach) as [H _].
  exact (proj1 (H 1 eq_refl)).
Defined.

(** X13: with an observer, right after an activation entry for [x] both
    [activeTarget] and [lastActiveTarget] are [x].  When [x] is deactivated
    next, [activeTarget] falls back to the most recent of the other active
    elements ([null] when there is none) while [lastActiveTarget] stays
    [x]. *)
Theorem activeTarget_falls_back_on_deactivation w o (x : Element) :
  observer w = Some o →
  let w1 := world_after (observerCallback [mkEntry x true]) w in
  let w2 := world_after (observerCallback [mkEntry x false]) w1 in
  activeTarget w1 = Some x ∧ lastActiveTarget w1 = Some x ∧
  activeTarget w2 = last (filter (λ y, y ≠ x) (activeTargets w)) ∧
  activeTarget w2 ≠ Some x ∧
  lastActiveTarget w2 = Some x ∧
  (x ∉ activeTargets w → activeTarget w2 = activeTarget w).
Proof.
  intros Ho w1 w2.
  assert (Hw1 : w1 = delivered (mkEntry x true) w).
  { unfold w1, world_after. by rewrite (deliver_one _ w o Ho). }
  assert (Hw2 : w2 = delivered (mkEntry x false) w1).
  { unfold w2, world_after. by rewrite (deliver_one _ w1 o) by by rewrite Hw1. }
  assert (Ha2 : activeTargets w2 = JsSet.delete x (activeTargets w)).
  { rewrite Hw2, Hw1. unfold delivered; simpl.
    rewrite delete_snoc_fresh by apply not_elem_of_delete. done. }
  unfold activeTarget. rewrite Ha2. split_and!.
  - rewrite Hw1. unfold delivered; simpl. apply last_snoc.
  - by rewrite Hw1.
  - done.
  - intros Hx%last_Some_elem_of. by apply not_elem_of_delete in Hx.
  - by rewrite Hw2, Hw1.
  - intros Hx. by rewrite delete_absent.
Qed.

Lemma activeTarget_falls_back_on_deactivation_witness :
  let w := world_after (spy (TElem 1) ;; spy (TElem 2) ;;
                        observerCallback [mkEntry 1 true])
             (createScrollSpy true None intro_page) in
  let w1 := world_after (observerCallback [mkEntry 2 true]) w in
  let w2 := world_after (observerCallback [mkEntry 2 false]) w1 in
  activeTarget w1 = Some 2 ∧ activeTarget w2 = Some 1 ∧
  lastActiveTarget w2 = Some 2.
Proof.
  intros w w1 w2.
  destruct (activeTarget_falls_back_on_deactivation w (mkObserver None [1; 2])
              2 eq_refl) as (H1 & _ & H2 & _ & H3 & _).
  split_and!; [exact H1|exact H2|exact H3].
Defined.

(** ** What every reachable state satisfies *)

(** X14: a tracker with an observer observes exactly the registered elements:
    in every reachable state the observation targets are the registration
    set, in registration order and without repetition. *)
Theorem observer_watches_exactly_targets w :
  reachable true w →
  ∃ o, observer w = Some o ∧ observationTargets o = targets w ∧
       NoDup (observationTargets o).
Proof.
  intros (Hnd & _ & _ & _ & o & Ho & Hobs)%reachable_inv.
  exists o. by rewrite Hobs.
Qed.

Lemma observer_watches_exactly_targets_witness :
  let w := world_after (call (CallUnspy (TElem 1)))
             (world_after (call (CallSpy (TElem 2)))
                (world_after (call (CallSpy (TElem 1)))
                   (createScrollSpy true None intro_page))) in
  targets w = [2] ∧
  ∃ o, observer w = Some o ∧ observationTargets o = targets w ∧
       NoDup (observationTargets o).
Proof.
  intros w. split; [reflexivity|].
  apply observer_watches_exactly_targets.
  do 3 apply reachable_call. apply reachable_create.
Defined.

(** X15: in every reachable state the element [lastActiveTarget] refers to is
    registered, so [isActive] is never [null] for it: the pointer is [null]
    once its element is no longer spied on. *)
Theorem lastActiveTarget_is_registered has w (x : Element) :
  reachable has w → lastActiveTarget w = Some x →
  x ∈ targets w ∧ isActive w x ≠ None.
Proof.
  intros (_ & _ & _ & Hlast & _)%reachable_inv Hx.
  pose proof (Hlast x Hx) as Hin. split; [done|].
  unfold isActive. destruct (JsSet.has x (activeTargets w)); [done|].
  by rewrite (proj2 (has_true x (targets w)) Hin).
Qed.

Lemma lastActiveTarget_is_registered_witness :
  let w := world_after (observerCallback [mkEntry 1 true; mkEntry 1 false])
             (world_after (call (CallSpy (TElem 1)))
                (createScrollSpy true None intro_page)) in
  lastActiveTarget w = Some 1 ∧ 1 ∈ targets w ∧ isActive w 1 ≠ None.
Proof.
  intros w. split; [reflexivity|].
  apply (lastActiveTarget_is_registered true w 1); [|reflexivity].
  apply reachable_deliver; [apply reachable_call, reachable_create|].
  exists (mkObserver None [1]). split; [reflexivity|].
  repeat (apply Forall_cons; split;
          [apply list_elem_of_singleton; reflexivity|]).
  apply Forall_nil_2.
Defined.

(** ** Without [IntersectionObserver] *)

Lemma fallback_call w c :
  observer w = None →
  let w' := world_after (call c) w in
  observer w' = None ∧ updates w' = updates w ∧
  activeTargets w' = activeTargets w ∧
  lastActiveTarget w' = lastActiveTarget w ∧
  targets w `prefix_of` targets w'.
Proof.
  intros Ho. destruct c as [t|t label|t|]; simpl.
  - rewrite world_after_ret_tt. unfold world_after.
    destruct (fst (resolve t w)) as [[elem|]|e] eqn:Hr.
    + destruct (decide (elem ∈ targets w)) as [Hin|Hin].
      * by destruct (spy_rejected_duplicate t w elem Hr Hin) as (r & -> & _).
      * rewrite (spy_fallback t w elem Ho Hr Hin). simpl.
        split_and!; try done. by apply prefix_app_r.
    + by destruct (spy_rejected_not_found t w Hr) as (r & -> & _).
    + rewrite resolve_run in Hr. done.
  - rewrite world_after_ret_tt. unfold world_after.
    destruct (fst (resolve t w)) as [[elem|]|e] eqn:Hr.
    + destruct (decide (id (document w) elem = "")) as [Hid|Hid].
      { by rewrite (sectionSpy_rejected_no_id t label w elem Hr Hid). }
      destruct (decide (elem ∈ targets w)) as [Hin|Hin].
      { by rewrite (sectionSpy_rejected_duplicate t label w elem Hr Hid Hin). }
      rewrite (sectionSpy_fallback t label w elem Ho Hr Hid Hin). simpl.
      split_and!; try done. by apply prefix_app_r.
    + by rewrite (sectionSpy_rejected_not_found t label w Hr).
    + rewrite resolve_run in Hr. done.
  - destruct (unspy_fallback_frame w t Ho) as (-> & -> & -> & -> & ->). done.
  - unfold world_after. by rewrite (unspyAll_fallback w Ho).
Qed.

(** X16: a tracker created without [IntersectionObserver] never broadcasts an
    update and never has an active element: in every reachable state the
    broadcast log and the active set are empty, [lastActiveTarget] and
    [activeTarget] are [null], and [isActive] is [false] on the registered
    elements and [null] on the others. *)
Theorem fallback_is_silent_and_inactive w :
  reachable false w →
  observer w = None ∧ updates w = [] ∧
  activeTargets w = [] ∧ lastActiveTarget w = None ∧ activeTarget w = None ∧
  (∀ x, isActive w x = if decide (x ∈ targets w) then Some false else None).
Proof.
  intros Hreach.
  assert (Hu : observer w = None ∧ updates w = []).
  { induction Hreach as [init d|w c _ IH|w entries _ IH Hobs|w d _ IH];
      [done| | |done].
    - destruct IH as [Ho Hu].
      destruct (fallback_call w c Ho) as (Ho' & Hu' & _). by rewrite Hu'.
    - destruct IH as [Ho _]. destruct Hobs as (o & Ho' & _). congruence. }
  destruct Hu as [Ho Hu].
  destruct (reachable_inv false w Hreach) as (_ & _ & _ & _ & _ & Ha & Hl).
  unfold activeTarget, isActive. rewrite Ha. split_and!; try done.
  intros x. simpl. unfold JsSet.has.
  destruct (decide (x ∈ targets w)) as [Hin|Hin].
  - by rewrite bool_decide_eq_true_2.
  - by rewrite bool_decide_eq_false_2.
Qed.

Lemma fallback_is_silent_and_inactive_witness :
  let w := world_after (call (CallSpy (TElem 1)))
             (createScrollSpy false None intro_page) in
  targets w = [1] ∧ updates w = [] ∧ isActive w 1 = Some false.
Proof.
  intros w.
  destruct (fallback_is_silent_and_inactive w) as (_ & Hu & _ & _ & _ & Hi).
  - apply reachable_call, reachable_create.
  - split_and!; [reflexivity|exact Hu|exact (Hi 1)].
Defined.

(** X17: without [IntersectionObserver] no call ever unregisters anything:
    after [spy], [sectionSpy.spy], [unspy] or [unspyAll] the registration set
    still starts with the elements it held before, in the same order. *)
Theorem fallback_never_unregisters w c :
  observer w = None →
  targets w `prefix_of` targets (world_after (call c) w).
Proof.
  intros Ho. by destruct (fallback_call w c Ho) as (_ & _ & _ & _ & H).
Qed.

Lemma fallback_never_unregisters_witness :
  let w := world_after (call (CallSpy (TElem 1)))
             (createScrollSpy false None intro_page) in
  targets w = [1] ∧
  targets w `prefix_of` targets (world_after (call CallUnspyAll) w) ∧
  targets w `prefix_of` targets (world_after (call (CallUnspy (TElem 1))) w).
Proof.
  intros w. split_and!; [reflexivity| |];
    apply fallback_never_unregisters; reflexivity.
Defined.

(** ** The DOM *)

Lemma keeps_document_ret {A} (a : A) : keeps_document (ret a).
Proof. done. Qed.

Lemma keeps_document_gets {A} (f : World → A) : keeps_document (gets f).
Proof. done. Qed.

Lemma keeps_document_modify f :
  (∀ w, document (f w) = document w) → keeps_document (modify f).
Proof. intros Hf w. apply Hf. Qed.

Lemma keeps_document_bind {A B} (m : JS A) (k : A → JS B) :
  keeps_document m → (∀ a, keeps_document (k a)) → keeps_document (bind m k).
Proof.
  intros Hm Hk w. unfold world_after, bind.
  specialize (Hm w). unfold world_after in Hm.
  destruct (m w) as [[a|e] w1]; simpl in *; [|done].
  rewrite <- Hm. apply Hk.
Qed.

Lemma keeps_document_for_of {A} (xs : list A) (body : A → JS unit) :
  (∀ x, keeps_document (body x)) → keeps_document (for_of xs body).
Proof.
  intros Hb. induction xs as [|x xs IH]; simpl.
  - apply keeps_document_ret.
  - apply keeps_document_bind; [apply Hb|done].
Qed.

Lemma keeps_document_read_observer : keeps_document read_observer.
Proof. intros w. unfold world_after, read_observer. by destruct (observer w). Qed.

Lemma keeps_document_reportUpdates : keeps_document reportUpdates.
Proof. intros w. unfold world_after, reportUpdates. by destruct (observer w). Qed.

Ltac keeps_document :=
  repeat first
    [ apply keeps_document_ret
    | apply keeps_document_gets
    | apply keeps_document_read_observer
    | apply keeps_document_reportUpdates
    | apply keeps_document_modify; done
    | apply keeps_document_for_of; intros ?
    | apply keeps_document_bind; [|intros ?]
    | progress case_match ].

Lemma keeps_document_unspy t : keeps_document (unspy t).
Proof.
  unfold unspy, unspy_resolve, unspy_elem, unobserve, setTargetUnactive,
    console_warn.
  destruct t; keeps_document.
Qed.

Lemma keeps_document_spy t : keeps_document (spy t).
Proof.
  unfold spy, resolve, observe, console_warn. destruct t; keeps_document.
Qed.

Lemma keeps_document_unspyAll : keeps_document unspyAll.
Proof. unfold unspyAll, disconnect. keeps_document. Qed.

Lemma keeps_document_observerCallback entries :
  keeps_document (observerCallback entries).
Proof.
  unfold observerCallback, setTargetActive, setTargetUnactive.
  keeps_document.
Qed.

(** X18: the tracker of [createScrollSpy] never writes to the DOM: [spy],
    [unspy], [unspyAll], the handles returned by [spy] and the observer
    callback leave every attribute of every element as it was, with and
    without an observer, whether they return or throw. *)
Theorem tracker_never_writes_dom w :
  (∀ t, document (world_after (spy t) w) = document w) ∧
  (∀ t, document (world_after (unspy t) w) = document w) ∧
  document (world_after unspyAll w) = document w ∧
  (∀ entries, document (world_after (observerCallback entries) w)
              = document w) ∧
  (∀ t r w' h, spy t w = (Normal r, w') → destroy r = Some h →
               ∀ w1, document (world_after h w1) = document w1).
Proof.
  split_and!.
  - intros t. apply keeps_document_spy.
  - intros t. apply keeps_document_unspy.
  - apply keeps_document_unspyAll.
  - intros entries. apply keeps_document_observerCallback.
  - intros t r w' h Hs Hd.
    destruct (spy_inv t w r w' h Hs Hd) as (elem & _ & _ & _ & _ & -> & _).
    apply keeps_document_unspy.
Qed.

Lemma tracker_never_writes_dom_witness :
  let w := createScrollSpy true None intro_page in
  let w1 := world_after (spy (TElem 1)) w in
  document (world_after (unspy (TElem 1)) w1) = document w1.
Proof.
  intros w w1.
  destruct (tracker_never_writes_dom w) as (_ & _ & _ & _ & H).
  exact (H (TElem 1) (mkActionReturn (Some (unspy (TElem 1)))) w1
           (unspy (TElem 1)) eq_refl eq_refl w1).
Defined.

Lemma getAttribute_setAttribute_other d e name value e' name' :
  e' ≠ e ∨ name' ≠ name →
  getAttribute (setAttribute e name value d) e' name' = getAttribute d e' name'.
Proof.
  intros Hne. unfold getAttribute, setAttribute; simpl.
  destruct (decide (e' = e)) as [->|He].
  - rewrite lookup_total_insert_eq. destruct Hne as [|Hn]; [done|].
    by rewrite lookup_insert_ne.
  - by rewrite lookup_total_insert_ne.
Qed.

(** X19: [sectionSpy.spy] writes nothing but the [data-section-label]
    attribute of the element its target resolves to: every other attribute,
    in particular every [id], and the attributes of every other element are
    left as they were, and no element is added to or removed from the
    document. *)
Theorem sectionSpy_writes_only_the_label t label w :
  let w' := world_after (sectionSpy.spy t label) w in
  (∀ e name,
     name ≠ "data-section-label" ∨ fst (resolve t w) ≠ Normal (Some e) →
     getAttribute (document w') e name = getAttribute (document w) e name) ∧
  (∀ e, id (document w') e = id (document w) e) ∧
  tree (document w') = tree (document w).
Proof.
  intros w'.
  assert (Hdoc : document w' = document w ∨
    ∃ elem l, fst (resolve t w) = Normal (Some elem) ∧
      document w' = setAttribute elem "data-section-label" l (document w)).
  { unfold w', world_after.
    destruct (fst (resolve t w)) as [[elem|]|e] eqn:Hr.
    - destruct (decide (id (document w) elem = "")) as [Hid|Hid].
      { left. by rewrite (sectionSpy_rejected_no_id t label w elem Hr Hid). }
      destruct (decide (elem ∈ targets w)) as [Hin|Hin].
      { left.
        by rewrite (sectionSpy_rejected_duplicate t label w elem Hr Hid Hin). }
      destruct (observer w) as [o|] eqn:Ho.
      + right. exists elem. eexists. split; [done|].
        rewrite (sectionSpy_run t label w o elem Ho Hr Hid Hin). simpl.
        by rewrite (keeps_document_spy (TElem elem) w).
      + left. by rewrite (sectionSpy_fallback t label w elem Ho Hr Hid Hin).
    - left. by rewrite (sectionSpy_rejected_not_found t label w Hr).
    - rewrite resolve_run in Hr. done. }
  destruct Hdoc as [->|(elem & l & Hr & ->)]; [done|].
  split_and!; [| |done].
  - intros e name Hne. apply getAttribute_setAttribute_other.
    destruct Hne as [Hn|He]; [by right|]. left. congruence.
  - intros e. unfold id. by rewrite getAttribute_setAttribute_other by by right.
Qed.

Lemma sectionSpy_writes_only_the_label_witness :
  let w := sectionSpy.create true intro_page in
  let w' := world_after (sectionSpy.spy (TElem 1) None) w in
  getAttribute (document w') 1 "id" = Some "intro-section" ∧
  getAttribute (document w') 2 "data-section-label" = None.
Proof.
  intros w w'.
  destruct (sectionSpy_writes_only_the_label (TElem 1) None w) as [H _].
  split.
  - apply (H 1 "id"). left. discriminate.
  - apply (H 2 "data-section-label"). right. discriminate.
Defined.

(** X20: a label given to [sectionSpy.spy] is written as it is, the empty
    string included ([??=] replaces only a missing label), whatever the id of
    the element looks like and whatever label the element carried before. *)
Theorem sectionSpy_keeps_explicit_label t (l : string) w o elem :
  observer w = Some o →
  fst (resolve t w) = Normal (Some elem) →
  id (document w) elem ≠ "" → elem ∉ targets w →
  let w' := world_after (sectionSpy.spy t (Some l)) w in
  getAttribute (document w') elem "data-section-label" = Some l ∧
  elem ∈ targets w'.
Proof.
  intros Ho Hr Hid Hin w'. unfold w', world_after.
  rewrite (sectionSpy_run t (Some l) w o elem Ho Hr Hid Hin). simpl.
  split; [apply getAttribute_setAttribute|].
  unfold world_after. rewrite (spy_run (TElem elem) w o elem Ho eq_refl Hin).
  simpl. apply elem_of_app. right. by apply list_elem_of_singleton.
Qed.

Lemma sectionSpy_keeps_explicit_label_witness :
  let w := sectionSpy.create true intro_page in
  let w' := world_after (sectionSpy.spy (TElem 1) (Some "")) w in
  getAttribute (document w') 1 "data-section-label" = Some "".
Proof.
  intros w w'.
  destruct (sectionSpy_keeps_explicit_label (TElem 1) "" w
              (mkObserver (Some sectionSpy.observerInit) []) 1
              eq_refl eq_refl ltac:(discriminate) (not_elem_of_nil 1))
    as [H _].
  exact H.
Defined.

(** X21: every element that [sectionSpy.spy] adds to the registration set is
    the element its target resolves to and has a non-empty id; with an
    observer it carries, after the call, the given label or else the label
    derived from its id. *)
Theorem sectionSpy_registers_only_labelled_ids t label w (x : Element) :
  let w' := world_after (sectionSpy.spy t label) w in
  x ∈ targets w' → x ∉ targets w →
  fst (resolve t w) = Normal (Some x) ∧
  id (document w) x ≠ "" ∧
  (is_Some (observer w) →
   getAttribute (document w') x "data-section-label"
   = Some (default (kebabCaseToCapWords (id (document w) x)) label)).
Proof.
  intros w'. unfold w', world_after.
  destruct (fst (resolve t w)) as [[elem|]|e] eqn:Hr.
  - destruct (decide (id (document w) elem = "")) as [Hid|Hid].
    { by rewrite (sectionSpy_rejected_no_id t label w elem Hr Hid). }
    destruct (decide (elem ∈ targets w)) as [Hin|Hin].
    { by rewrite (sectionSpy_rejected_duplicate t label w elem Hr Hid Hin). }
    destruct (observer w) as [o|] eqn:Ho.
    + rewrite (sectionSpy_run t label w o elem Ho Hr Hid Hin). simpl.
      unfold world_after.
      rewrite (spy_run (TElem elem) w o elem Ho eq_refl Hin). simpl.
      intros [Hx| ->%list_elem_of_singleton]%elem_of_app Hnot; [done|].
      split_and!; try done. intros _. apply getAttribute_setAttribute.
    + rewrite (sectionSpy_fallback t label w elem Ho Hr Hid Hin). simpl.
      intros [Hx| ->%list_elem_of_singleton]%elem_of_app Hnot; [done|].
      split_and!; try done.
  - by rewrite (sectionSpy_rejected_not_found t label w Hr).
  - rewrite resolve_run in Hr. done.
Qed.

Lemma sectionSpy_registers_only_labelled_ids_witness :
  let w := sectionSpy.create true intro_page in
  let w' := world_after (sectionSpy.spy (TId "usage") None) w in
  targets w' = [2] ∧ id (document w) 2 ≠ "" ∧
  getAttribute (document w') 2 "data-section-label" = Some "Usage".
Proof.
  intros w w'.
  destruct (sectionSpy_registers_only_labelled_ids (TId "usage") None w 2)
    as (_ & Hid & Hl).
  - apply list_elem_of_singleton. reflexivity.
  - apply not_elem_of_nil.
  - split_and!; [reflexivity|exact Hid|].
    apply Hl. by eexists.
Defined.

(** ** Labels of ids without hyphen *)

Lemma replace_hyphen_any_no_hyphen s :
  forallb (λ c, negb (Ascii.eqb c "-")) (list_ascii_of_string s) = true →
  replace_hyphen_any s = s.
Proof.
  induction s as [|c s IH]; intros Hs; [done|].
  simpl in Hs. apply andb_true_iff in Hs as [Hc Hs].
  apply negb_true_iff in Hc.
  rewrite replace_hyphen_any_other by done. by rewrite IH.
Qed.

(** X22: for an id made of ASCII characters, none of them a hyphen, the
    derived label differs from the id in its first character at most: a first
    character [a]-[z] is replaced by the letter 32 codes below it ([A]-[Z]),
    and an id that starts with any other ASCII character, LF and CR
    included, is its own label. *)
Theorem kebabCaseToCapWords_without_hyphen (c : ascii) (rest : string) :
  let s := String c rest in
  let n := nat_of_ascii c in
  forallb (λ c, (nat_of_ascii c <? 128)%nat) (list_ascii_of_string s) = true →
  forallb (λ c, negb (Ascii.eqb c "-")) (list_ascii_of_string s) = true →
  ((97 ≤ n ≤ 122)%nat →
   kebabCaseToCapWords s = String (ascii_of_nat (n - 32)) rest) ∧
  (¬ (97 ≤ n ≤ 122)%nat → kebabCaseToCapWords s = s).
Proof.
  intros s n _ Hs. unfold kebabCaseToCapWords.
  rewrite (replace_hyphen_any_no_hyphen s Hs). unfold s, replace_first.
  split.
  - intros [Hlo Hhi].
    assert (Hc : isLowercase c = true).
    { unfold isLowercase. fold n. apply andb_true_intro.
      split; by apply Nat.leb_le. }
    rewrite (isLowercase_not_terminator c Hc).
    unfold toUpperCase. fold n. unfold isLowercase in Hc. fold n in Hc.
    by rewrite Hc.
  - intros Hn.
    destruct (isLineTerminator c); [done|].
    unfold toUpperCase. fold n.
    destruct ((97 <=? n)%nat && (n <=? 122)%nat) eqn:E; [|done].
    apply andb_true_iff in E as [Hlo%Nat.leb_le Hhi%Nat.leb_le].
    exfalso. by apply Hn.
Qed.

Lemma kebabCaseToCapWords_without_hyphen_witness :
  kebabCaseToCapWords "usage" = "Usage" ∧
  kebabCaseToCapWords "2nd part" = "2nd part".
Proof.
  destruct (kebabCaseToCapWords_without_hyphen "u" "sage" eq_refl eq_refl)
    as [Hlower _].
  destruct (kebabCaseToCapWords_without_hyphen "2" "nd part" eq_refl eq_refl)
    as [_ Hother].
  split.
  - apply Hlower. vm_compute. split; repeat constructor.
  - apply Hother. vm_compute. intros [H _].
    repeat (apply le_S_n in H). inversion H.
Defined.

(** ** The colour boxes *)

(** X23: in the colour boxes component a box is outlined when its
    [aria-label] equals [activeColor].  In a reachable state in which the
    registered boxes carry pairwise different labels, the label of a
    registered box equals [activeColor] exactly when that box is the
    [activeTarget]; so at most one box is outlined, and none when no box is
    active. *)
Theorem outlined_box_is_activeTarget has w :
  reachable has w →
  (∀ a b c, a ∈ targets w → b ∈ targets w →
            getAttribute (document w) a "aria-label" = Some c →
            getAttribute (document w) b "aria-label" = Some c → a = b) →
  (∀ box c, box ∈ targets w →
            getAttribute (document w) box "aria-label" = Some c →
            activeColor w = Some c ↔ activeTarget w = Some box) ∧
  (activeTargets w = [] → activeColor w = None).
Proof.
  intros Hreach Hinj.
  destruct (reachable_inv has w Hreach) as (_ & _ & Hsub & _).
  split.
  - intros box c Hbox Hc. unfold activeColor. split.
    + destruct (activeTarget w) as [b'|] eqn:Ea; [|done]. simpl. intros Hc'.
      f_equal. apply (Hinj b' box c); try done.
      apply Hsub. by apply last_Some_elem_of.
    + intros ->. done.
  - intros Hnil. unfold activeColor, activeTarget. by rewrite Hnil.
Qed.

Lemma outlined_box_is_activeTarget_witness :
  let boxes :=
    mkDocument (list_to_map [(1, {[ "aria-label" := "red" ]});
                             (2, {[ "aria-label" := "green" ]})]) [1; 2] in
  let w := world_after (observerCallback [mkEntry 2 true])
             (world_after (call (CallSpy (TElem 2)))
                (world_after (call (CallSpy (TElem 1)))
                   (createScrollSpy true None boxes))) in
  activeColor w = Some "green" ∧ activeTarget w = Some 2.
Proof.
  intros boxes w. split; [reflexivity|].
  assert (Hreach : reachable true w).
  { apply reachable_deliver; [do 2 apply reachable_call; apply reachable_create|].
    exists (mkObserver None [1; 2]). split; [reflexivity|].
    apply Forall_cons. split; [|apply Forall_nil_2].
    apply elem_of_cons. right. apply list_elem_of_singleton. reflexivity. }
  assert (Hinj : ∀ a b c, a ∈ targets w → b ∈ targets w →
            getAttribute (document w) a "aria-label" = Some c →
            getAttribute (document w) b "aria-label" = Some c → a = b).
  { intros a b c Ha Hb.
    apply (elem_of_cons (A:=Element) [2] a 1) in Ha.
    apply (elem_of_cons (A:=Element) [2] b 1) in Hb.
    destruct Ha as [->|Ha%list_elem_of_singleton],
             Hb as [->|Hb%list_elem_of_singleton]; subst;
      vm_compute; congruence. }
  destruct (outlined_box_is_activeTarget true w Hreach Hinj) as [H _].
  apply (H 2 "green").
  - apply elem_of_cons. right. apply list_elem_of_singleton. reflexivity.
  - reflexivity.
  - reflexivity.
Defined.

(** ** The life of a registered element *)

Lemma isActive_by_membership w (x : Element) :
  active_registered w →
  (x ∉ targets w → isActive w x = None) ∧
  (x ∈ targets w → x ∉ activeTargets w → isActive w x = Some false) ∧
  (x ∈ activeTargets w → isActive w x = Some true).
Proof.
  intros Hsub. unfold isActive, JsSet.has. split_and!.
  - intros Hx. rewrite (bool_decide_eq_false_2 (x ∈ activeTargets w))
      by (intros Ha; by apply Hx, Hsub).
    by rewrite bool_decide_eq_false_2.
  - intros Hx Ha. rewrite bool_decide_eq_false_2 by done.
    by rewrite bool_decide_eq_true_2.
  - intros Ha. by rewrite bool_decide_eq_true_2.
Qed.

(** X24: the answers of [isActive] over the life of an element.  From a
    reachable state of a tracker with an observer in which [e] is not
    registered: [isActive(e)] is [null]; after [spy(e)] it is [false]; after
    an activation entry for [e] it is [true]; after a deactivation entry it
    is [false] again, [lastActiveTarget] still being [e]; after [unspy(e)]
    it is [null] and [lastActiveTarget] is [null]. *)
Theorem isActive_over_a_registration w (e : Element) :
  reachable true w → e ∉ targets w →
  let w1 := world_after (spy (TElem e)) w in
  let w2 := world_after (observerCallback [mkEntry e true]) w1 in
  let w3 := world_after (observerCallback [mkEntry e false]) w2 in
  let w4 := world_after (unspy (TElem e)) w3 in
  isActive w e = None ∧
  isActive w1 e = Some false ∧
  isActive w2 e = Some true ∧
  isActive w3 e = Some false ∧ lastActiveTarget w3 = Some e ∧
  isActive w4 e = None ∧ lastActiveTarget w4 = None.
Proof.
  intros Hreach Hin w1 w2 w3 w4.
  destruct (reachable_inv true w Hreach) as (_ & _ & Hsub & _ & o & Ho & Hobs).
  assert (Hw1 : w1 = snd (spy (TElem e) w)) by done.
  rewrite (spy_run (TElem e) w o e Ho eq_refl Hin) in Hw1. simpl in Hw1.
  assert (Ho1 : ∃ o1, observer w1 = Some o1) by (rewrite Hw1; by eexists).
  destruct Ho1 as [o1 Ho1].
  assert (Hw2 : w2 = delivered (mkEntry e true) w1).
  { unfold w2, world_after. by rewrite (deliver_one _ w1 o1 Ho1). }
  assert (Hw3 : w3 = delivered (mkEntry e false) w2).
  { unfold w3, world_after.
    by rewrite (deliver_one _ w2 o1) by by rewrite Hw2. }
  assert (Hw4 : w4 = snd (unspy (TElem e) w3)) by done.
  rewrite (unspy_elem_path_run w3 o1 e) in Hw4 by by rewrite Hw3, Hw2.
  simpl in Hw4.
  assert (Ht1 : targets w1 = targets w ++ [e]) by by rewrite Hw1.
  assert (Ha1 : activeTargets w1 = activeTargets w) by by rewrite Hw1.
  assert (He1 : e ∈ targets w1).
  { rewrite Ht1. apply elem_of_app. right. by apply list_elem_of_singleton. }
  assert (Hsub1 : active_registered w1).
  { intros x Hx. rewrite Ht1. rewrite Ha1 in Hx.
    apply elem_of_app. left. by apply Hsub. }
  assert (Hsub2 : active_registered w2).
  { rewrite Hw2. by apply active_registered_delivered. }
  assert (Hsub3 : active_registered w3).
  { rewrite Hw3. by apply active_registered_delivered. }
  assert (Hsub4 : active_registered w4).
  { rewrite Hw4. by apply (active_registered_unspied_logged w3). }
  split_and!.
  - by apply isActive_by_membership.
  - apply isActive_by_membership; [done..|].
    rewrite Ha1. intros Hx. by apply Hin, Hsub.
  - apply isActive_by_membership; [done|].
    rewrite Hw2. apply delivered_active. by rewrite decide_True.
  - apply isActive_by_membership; [done| |].
    + by rewrite Hw3, Hw2.
    + rewrite Hw3. rewrite delivered_active. by rewrite decide_True.
  - by rewrite Hw3, Hw2.
  - apply isActive_by_membership; [done|].
    rewrite Hw4. simpl. rewrite filter_not_elem_of_singleton.
    apply not_elem_of_delete.
  - rewrite Hw4. simpl. rewrite Hw3, Hw2. simpl.
    by rewrite decide_True by (by apply list_elem_of_singleton).
Qed.

Lemma isActive_over_a_registration_witness :
  let w := world_after (call (CallSpy (TElem 1)))
             (createScrollSpy true None intro_page) in
  let w1 := world_after (spy (TElem 2)) w in
  let w2 := world_after (observerCallback [mkEntry 2 true]) w1 in
  isActive w 2 = None ∧ isActive w1 2 = Some false ∧
  isActive w2 2 = Some true.
Proof.
  intros w w1 w2.
  destruct (isActive_over_a_registration w 2) as (H0 & H1 & H2 & _).
  - apply reachable_call, reachable_create.
  - intros H. apply (list_elem_of_singleton (A:=Element) 2 1) in H.
    discriminate H.
  - split_and!; [exact H0|exact H1|exact H2].
Defined.
